(** * Unmerge review worksheets: clustering, temporal bitmaps and consumption

    A shallow embedding of the worksheet engine of the identity registry.
    Part I holds the definitions, one module per source file:

    - [Codec]      : [bitarray_util.py], presence bitmap <-> display string;
    - [K12]        : [k12_processor.py], enrollment preprocessing, the twelve
                     sampled dates and the trimming of the school-year pivot;
    - [Wage]       : [wage_processor.py], housekeeping and the quarterly
                     presence matrix;
    - [Clusterer]  : [groupid_assigner.py] and the worksheet wrapper of
                     [worksheet_utils.py];
    - [Consume]    : [worksheet_consume.py] and [ssn_util.py], the
                     two-transaction consumer over the classification tables
                     declared in [entity.py].

    Part II holds the lemmas and theorems, in the same order.

    Conventions.  A Python [int] is a [Z]; a [str] is a [string], one [ascii]
    per character; a [dict] is a [gmap] and a [set] a [gset]; a pandas frame
    is the list of its rows, or of its columns where the code walks the
    columns; a null cell (None, NaN, NaT) is [None].  A raised exception is a
    [None] result.  Money is counted in hundredths so that the sentinel
    -9999.99 is the integer -999999. *)

From Stdlib Require Import ZArith String Ascii.
From stdpp Require Import base tactics option list sorting gmap strings.

Local Open Scope Z_scope.

(** * Part I: definitions *)

(** ** Frame helpers shared by the components *)

Section frame_helpers.
Context {A K : Type} `{EqDecision K}.
Variable key : A → K.

(** [DataFrame.drop_duplicates(subset=key)] and [Series.drop_duplicates()]:
    a row is kept when no earlier row carries its key ([keep="first"]). *)
Fixpoint drop_duplicates_from (seen : list K) (rows : list A) : list A :=
  match rows with
  | [] => []
  | r :: rest =>
      if decide (key r ∈ seen) then drop_duplicates_from seen rest
      else r :: drop_duplicates_from (key r :: seen) rest
  end.

Definition drop_duplicates (rows : list A) : list A :=
  drop_duplicates_from [] rows.

End frame_helpers.

(** [sorted(values)] over integers. *)
Definition sorted_Z (values : list Z) : list Z := merge_sort Z.le values.

(** ** TemporalBitmapCodec: [bitarray_util.py] *)

Module Codec.

(** [''.join(parts)] *)
Definition join (parts : list string) : string :=
  foldr String.append EmptyString parts.

(** The characters of a [str], each again a [str] of length one, as the
    iteration over a Python string yields them. *)
Definition chars (s : string) : list string :=
  (λ c, String c EmptyString) <$> list_ascii_of_string s.

Definition convert_bitarray_to_string
    (bitarray : list Z) (enrolled_char not_enrolled_char : string) : string :=
  join ((λ bit, if bit =? 1 then enrolled_char else not_enrolled_char) <$> bitarray).

Definition convert_string_to_bitarray
    (enrollment_string : string) (enrolled_char : string) : list Z :=
  (λ char, if String.eqb char enrolled_char then 1 else 0)
    <$> chars enrollment_string.

(** A marker character is a [str] of length one. *)
Definition is_char (s : string) : Prop := String.length s = 1%nat.

(** A sequence whose elements are each 0 or 1. *)
Definition is_bits (seq : list Z) : Prop := Forall (λ b, b = 0 ∨ b = 1) seq.

End Codec.

(** ** EnrollmentAggregator: [k12_processor.py] *)

Module K12.

Record date := mkdate { year : Z; month : Z; day : Z }.

Definition date_leb (a b : date) : bool :=
  (year a <? year b)
  || ((year a =? year b)
      && ((month a <? month b) || ((month a =? month b) && (day a <=? day b)))).

(** [a <= b] on date cells: a comparison with a null date (NaT) is False. *)
Definition cell_le (a b : option date) : bool :=
  match a, b with
  | Some x, Some y => date_leb x y
  | _, _ => false
  end.

(** A raw enrollment row, as the history fetch returns it. *)
Record EnrollmentRow := {
  TokenID : Z;
  OrganizationYear : Z;
  EnrollmentBeginDT : option date;
  EnrollmentEndDT : option date
}.

(** A row of the preprocessed frame: the raw columns and the two added ones. *)
Record PreprocessedRow := {
  raw : EnrollmentRow;
  EndDT : option date;          (* EnrollmentEndDT after fillna *)
  SchoolYearEnd : date;
  SchoolYear : Z
}.

(** [fillna]: a null cell takes the default. *)
Definition fillna {T} (cell : option T) (default : T) : option T :=
  match cell with
  | Some v => Some v
  | None => Some default
  end.

Definition preprocess_data (k12_df : list EnrollmentRow) : list PreprocessedRow :=
  (* SchoolYearEnd: August 31 of the organization year *)
  let with_end := (λ r, (r, mkdate (OrganizationYear r) 8 31)) <$> k12_df in
  (* keep the rows with EnrollmentBeginDT <= SchoolYearEnd *)
  let kept :=
    filter (λ p, cell_le (EnrollmentBeginDT p.1) (Some p.2) = true) with_end in
  (* null EnrollmentEndDT: September 1 of the previous year; SchoolYear *)
  (λ p, {| raw := p.1;
           EndDT := fillna (EnrollmentEndDT p.1)
                      (mkdate (OrganizationYear p.1 - 1) 9 1);
           SchoolYearEnd := p.2;
           SchoolYear := OrganizationYear p.1 |}) <$> kept.

(** The fifteenth of September..December of the previous year, then of
    January..August of the school year. *)
Definition months (school_year : Z) : list date :=
  let year_start := school_year - 1 in
  ((λ m, mkdate year_start m 15) <$> [9; 10; 11; 12])
  ++ ((λ m, mkdate school_year m 15) <$> [1; 2; 3; 4; 5; 6; 7; 8]).

Definition compute_enrollment_bitarray
    (school_year : Z) (periods : list (option date * option date)) : list Z :=
  (λ month,
     let enrolled :=
       existsb (λ p, cell_le p.1 (Some month) && cell_le (Some month) p.2)
               periods in
     if enrolled then 1 else 0) <$> months school_year.

(** Order of the group keys of [groupby(['TokenID', 'SchoolYear'])]. *)
Definition key_le (a b : Z * Z) : Prop :=
  a.1 < b.1 ∨ (a.1 = b.1 ∧ a.2 ≤ b.2).

#[local] Instance key_le_dec a b : Decision (key_le a b).
Proof. unfold key_le. apply _. Defined.

Definition group_key (r : PreprocessedRow) : Z * Z := (TokenID (raw r), SchoolYear r).

(** The groups of [groupby(['TokenID', 'SchoolYear'])], each with the
    (begin, end) periods handed to the bitmap computation. *)
Definition enrollment_groups (k12_df : list PreprocessedRow)
    : list ((Z * Z) * list (option date * option date)) :=
  let keys := merge_sort key_le (drop_duplicates id (group_key <$> k12_df)) in
  (λ k, (k, (λ r, (EnrollmentBeginDT (raw r), EndDT r))
              <$> filter (λ r, group_key r = k) k12_df)) <$> keys.

(** Rows (TokenID, SchoolYear, EnrollmentBitarray). *)
Definition generate_enrollment_bitarrays (k12_df : list PreprocessedRow)
    : list (Z * Z * list Z) :=
  (λ g, (g.1.1, g.1.2, compute_enrollment_bitarray g.1.2 g.2))
    <$> enrollment_groups k12_df.

(** A cell of the pivot: a bitmap, or null where the Token has no row for the
    school year. *)
Definition cell := option (list Z).

(** The pivot, column by column: the label of a school-year column and its
    cells, one per Token of the index. *)
Definition pivot_frame (L : Type) := list (L * list cell).

(** [bitarrays.pivot(index="TokenID", columns="SchoolYear",
    values="EnrollmentBitarray")]: Tokens and school years ascending. *)
Definition pivot (bitarrays : list (Z * Z * list Z)) : pivot_frame Z :=
  let index := sorted_Z (drop_duplicates id ((λ b, b.1.1) <$> bitarrays)) in
  let columns := sorted_Z (drop_duplicates id ((λ b, b.1.2) <$> bitarrays)) in
  (λ y, (y, (λ t, (λ b, b.2)
                    <$> head (filter (λ b, b.1.1 = t ∧ b.1.2 = y) bitarrays))
              <$> index)) <$> columns.

Definition sum (bitarray : list Z) : Z := foldr Z.add 0 bitarray.

(** The inner helper of the trimming: the number of enrolled months. *)
Definition has_enrollment (bitarray : list Z) : Z := sum bitarray.

(** [col_data.apply(has_enrollment).eq(0).all()], where [col_data] has the
    null cells replaced by the empty list. *)
Definition no_enrollment (col : list cell) : bool :=
  forallb (λ x, has_enrollment (default [] x) =? 0) col.

(** [enumerate] and the first index at which the predicate holds. *)
Fixpoint first_index {T} (p : T → bool) (l : list T) (i : Z) : option Z :=
  match l with
  | [] => None
  | x :: rest => if p x then Some i else first_index p rest (i + 1)
  end.

(** [frame.iloc[:, a:b]] for indices that are not negative. *)
Definition iloc_columns {T} (a b : Z) (cols : list T) : list T :=
  drop (Z.to_nat a) (take (Z.to_nat b) cols).

Definition trim_non_enrollment_years {L} (k12_pivot : pivot_frame L) : pivot_frame L :=
  let cols := k12_pivot in
  let len := Z.of_nat (length cols) in
  (* first school year with an enrollment; 0 when there is none *)
  let first_enrolled :=
    default 0 (first_index (λ c, negb (no_enrollment c.2)) cols 0) in
  (* last school year with an enrollment; the last column when there is none *)
  let last_enrolled :=
    match first_index (λ c, negb (no_enrollment c.2)) (reverse cols) 0 with
    | Some i => len - 1 - i
    | None => len - 1
    end in
  iloc_columns first_enrolled (last_enrolled + 1) cols.

End K12.

(** ** WageAggregator: [wage_processor.py] *)

Module Wage.

(** A wage row; amounts and hours in hundredths.  Only the columns that the
    housekeeping and the presence matrix read are kept. *)
Record WageRow := {
  TokenID : Z;
  OrganizationYear : Z;
  TermTypeCD : string;
  WageAMT : Z;
  WageHR : Z
}.

Definition QUARTERS : list string := ["1"; "2"; "3"; "4"]%string.

(** The sentinels: -9999 hours and -9999.99 of amount, in hundredths. *)
Definition HR_SENTINEL : Z := -999900.
Definition AMT_SENTINEL : Z := -999999.

Definition normalize (r : WageRow) : WageRow :=
  {| TokenID := TokenID r;
     OrganizationYear := OrganizationYear r;
     TermTypeCD := TermTypeCD r;
     WageAMT := if WageAMT r =? AMT_SENTINEL then 0 else WageAMT r;
     WageHR := if WageHR r =? HR_SENTINEL then 0 else WageHR r |}.

Definition dedup_key (r : WageRow) : Z * Z * string * Z * Z :=
  (TokenID r, OrganizationYear r, TermTypeCD r, WageAMT r, WageHR r).

Definition _housekeep (df : list WageRow) : list WageRow :=
  drop_duplicates dedup_key (normalize <$> df).

(** [sorted(df["OrganizationYear"].unique())] *)
Definition years_of (df : list WageRow) : list Z :=
  sorted_Z (drop_duplicates id (OrganizationYear <$> df)).

(** [df[df["TermTypeCD"].isin(QUARTERS)]] *)
Definition quarter_rows (df : list WageRow) : list WageRow :=
  filter (λ r, TermTypeCD r ∈ QUARTERS) df.

(** The column added by [assign]: [WageAMT.gt(0)]. *)
Definition HasWages (r : WageRow) : bool := 0 <? WageAMT r.

(** A row belongs to the cell (Token, year, term code) of the pivot table. *)
Definition in_cell (token year : Z) (q : string) (r : WageRow) : Prop :=
  TokenID r = token ∧ OrganizationYear r = year ∧ TermTypeCD r = q.

#[export] Instance in_cell_dec token year q r : Decision (in_cell token year q r).
Proof. unfold in_cell. apply _. Defined.

(** The rows of one cell of the pivot table. *)
Definition cell_rows (df : list WageRow) (token year : Z) (q : string)
    : list WageRow :=
  filter (in_cell token year q) (quarter_rows df).

(** A cell of [present]: [aggfunc="first"] over the rows of the cell,
    [fill_value=False] where the pivot or the reindexing finds none. *)
Definition present (df : list WageRow) (token year : Z) (q : string) : bool :=
  match head (cell_rows df token year q) with
  | Some r => HasWages r
  | None => false
  end.

(** The presence frame: one row per Token of the pivot's index (ascending),
    and per year of [years] the string of column [wq_<year>_P]. *)
Definition _presence_matrix (df : list WageRow) (years : list Z)
    : list (Z * list (Z * string)) :=
  let index := sorted_Z (drop_duplicates id (TokenID <$> quarter_rows df)) in
  (λ token,
     (token,
      (λ year,
         (year,
          Codec.convert_bitarray_to_string
            ((λ q, if present df token year q then 1 else 0) <$> QUARTERS)
            "#" "_")) <$> years)) <$> index.

(** The presence block of [prepare]. *)
Definition prepare_presence (wage_df : list WageRow) : list (Z * list (Z * string)) :=
  match wage_df with
  | [] => []
  | _ =>
      let df := _housekeep wage_df in
      let years := years_of df in
      _presence_matrix df years
  end.

End Wage.

(** ** IdentityClusterer: [groupid_assigner.py], [worksheet_utils.py] *)

Module Clusterer.

(** The assigner object: its only attribute is the running counter. *)
Record GroupIdAssigner := { group_id_counter : Z }.

(** [__init__]: the counter starts at 1. *)
Definition init : GroupIdAssigner := {| group_id_counter := 1 |}.

(** [d[k]] on a [defaultdict(list)] / [defaultdict(set)]. *)
Definition tokens_of (d : gmap string (list Z)) (smash : string) : list Z :=
  default [] (d !! smash).

Definition bucket (d : gmap nat (gset string)) (len : nat) : gset string :=
  default ∅ (d !! len).

(** The first loop: [smashid_to_tokenids[smash].append(token_id)]. *)
Definition smashid_to_tokenids_of (token_smashids : list (Z * string))
    : gmap string (list Z) :=
  foldl (λ d p, <[p.2 := tokens_of d p.2 ++ [p.1]]> d) ∅ token_smashids.

(** The sort key [(-len(s), s)]: [a] comes strictly before [b]. *)
Definition before (a b : string) : bool :=
  (String.length b <? String.length a)%nat
  || ((String.length a =? String.length b)%nat && String.ltb a b).

(** [sorted(smashids, key=lambda s: (-len(s), s))[0]]: the least element
    under the key, found by one scan; [None] on the empty set. *)
Definition first_sorted (smashids : list string) : option string :=
  match smashids with
  | [] => None
  | s :: rest => Some (foldl (λ best x, if before x best then x else best) s rest)
  end.

(** [set(smash).issubset(set(longest))] *)
Definition issubset (smash longest : string) : bool :=
  forallb (λ c, existsb (Ascii.eqb c) (list_ascii_of_string longest))
          (list_ascii_of_string smash).

(** The two containers that a round mutates. *)
Definition Work : Type := gmap Z Z * gset string.

(** [for token_id in smashid_to_tokenids[smash]: result[token_id] = gid] *)
Definition assign (tokens : list Z) (gid : Z) (result : gmap Z Z) : gmap Z Z :=
  foldl (λ r token_id, <[token_id := gid]> r) result tokens.

(** The body shared by the three places that give a fingerprint its group:
    assign its Tokens, then [unassigned_smashids.remove(smash)]. *)
Definition absorb (d : gmap string (list Z)) (gid : Z) (smash : string)
    (w : Work) : Work :=
  (assign (tokens_of d smash) gid w.1, w.2 ∖ {[smash]}).

(** [length_to_smashids[len(smash)].add(smash)] over the unassigned set. *)
Definition length_to_smashids_of (unassigned : gset string)
    : gmap nat (gset string) :=
  foldl (λ d smash,
           <[String.length smash := bucket d (String.length smash) ∪ {[smash]}]> d)
        ∅ (elements unassigned).

(** [sorted(length_to_smashids.keys(), reverse=True)] *)
Definition lengths_of (d : gmap nat (gset string)) : list nat :=
  reverse (merge_sort le (elements (dom d))).

(** Step 3: fingerprints of the primary's length that equal it. *)
Definition step3 (d : gmap string (list Z)) (gid : Z) (longest : string)
    (same_length : gset string) (w : Work) : Work :=
  foldl (λ w smash, if String.eqb smash longest then absorb d gid smash w else w)
        w (elements same_length).

(** Step 4: shorter fingerprints whose character set is a subset. *)
Definition step4 (d : gmap string (list Z)) (gid : Z) (longest : string)
    (length_to_smashids : gmap nat (gset string)) (lengths : list nat)
    (w : Work) : Work :=
  foldl (λ w len,
           if (len <? String.length longest)%nat then
             foldl (λ w smash,
                      if issubset smash longest then absorb d gid smash w else w)
                   w (elements (bucket length_to_smashids len))
           else w)
        w lengths.

(** A sequence of absorptions with one GroupID, in order. *)
Definition absorb_all (d : gmap string (list Z)) (gid : Z) (smashids : list string)
    (w : Work) : Work :=
  foldl (λ w smash, absorb d gid smash w) w smashids.

(** The fingerprints that step 4 absorbs, in the order of its two loops. *)
Definition step4_absorbed (longest : string)
    (length_to_smashids : gmap nat (gset string)) (lengths : list nat)
    : list string :=
  len ← lengths;
  if (len <? String.length longest)%nat then
    List.filter (λ smash, issubset smash longest)
                (elements (bucket length_to_smashids len))
  else [].

(** The state of the [while] loop. *)
Record State := {
  result : gmap Z Z;
  unassigned_smashids : gset string;
  counter : Z
}.

(** One iteration of the [while] loop, for the primary [longest]. *)
Definition round (d : gmap string (list Z)) (longest : string) (st : State) : State :=
  let current_group_id := counter st in
  let w1 := absorb d current_group_id longest (result st, unassigned_smashids st) in
  let length_to_smashids := length_to_smashids_of w1.2 in
  let lengths := lengths_of length_to_smashids in
  let '(w3, length_to_smashids) :=
    match length_to_smashids !! String.length longest with
    | Some same_length =>
        (step3 d current_group_id longest same_length w1,
         delete (String.length longest) length_to_smashids)
    | None => (w1, length_to_smashids)
    end in
  let w4 := step4 d current_group_id longest length_to_smashids lengths w3 in
  {| result := w4.1; unassigned_smashids := w4.2; counter := current_group_id + 2 |}.

(** [while unassigned_smashids: ...], unrolled at most [fuel] times. *)
Fixpoint assign_loop (fuel : nat) (d : gmap string (list Z)) (st : State) : State :=
  match fuel with
  | O => st
  | S fuel' =>
      match first_sorted (elements (unassigned_smashids st)) with
      | None => st
      | Some longest => assign_loop fuel' d (round d longest st)
      end
  end.

(** The primaries and the GroupIDs allocated to them, round by round. *)
Fixpoint allocations (fuel : nat) (d : gmap string (list Z)) (st : State)
    : list (string * Z) :=
  match fuel with
  | O => []
  | S fuel' =>
      match first_sorted (elements (unassigned_smashids st)) with
      | None => []
      | Some longest => (longest, counter st) :: allocations fuel' d (round d longest st)
      end
  end.

(** The invariant of the loop: every input pair is either still waiting or
    has its Token assigned, and only input Tokens are assigned. *)
Definition covered (token_smashids : list (Z * string)) (st : State) : Prop :=
  (∀ t s, (t, s) ∈ token_smashids →
          s ∈ unassigned_smashids st ∨ is_Some (result st !! t))
  ∧ (∀ t, is_Some (result st !! t) → ∃ s, (t, s) ∈ token_smashids).

Definition initial (self : GroupIdAssigner) (d : gmap string (list Z)) : State :=
  {| result := ∅; unassigned_smashids := dom d; counter := group_id_counter self |}.

(** Every round removes its primary, so as many rounds as there are distinct
    fingerprints are enough (see [assign_loop_exits]). *)
Definition rounds_needed (d : gmap string (list Z)) : nat := size (dom d).

(** [assign_group_ids]: the assigner after the call and the returned dict. *)
Definition assign_group_ids (self : GroupIdAssigner)
    (token_smashids : list (Z * string)) : GroupIdAssigner * gmap Z Z :=
  let d := smashid_to_tokenids_of token_smashids in
  let st := assign_loop (rounds_needed d) d (initial self d) in
  ({| group_id_counter := counter st |}, result st).

(** The GroupIDs that a call allocates, in discovery order. *)
Definition allocated (self : GroupIdAssigner)
    (token_smashids : list (Z * string)) : list (string * Z) :=
  let d := smashid_to_tokenids_of token_smashids in
  allocations (rounds_needed d) d (initial self d).

(** [s.split(sep)] for a separator of one character. *)
Fixpoint split (sep : ascii) (s : string) : list string :=
  match s with
  | EmptyString => [EmptyString]
  | String c rest =>
      if Ascii.eqb c sep then EmptyString :: split sep rest
      else match split sep rest with
           | [] => [String c EmptyString]
           | piece :: pieces => String c piece :: pieces
           end
  end.

(** The pairs that the wrapper hands to the clusterer: the items of the dict
    in order, the empty fingerprints skipped, the tied ones split. *)
Definition token_smash_pairs (token_smash_final : list (Z * string))
    : list (Z * string) :=
  tid_smash ← token_smash_final;
  if decide (tid_smash.2 = EmptyString) then []
  else (λ smash_id, (tid_smash.1, smash_id)) <$> split "|" tid_smash.2.

(** [process_worksheet_group_ids]: a fresh assigner on the split pairs. *)
Definition process_worksheet_group_ids (token_smash_final : list (Z * string))
    : gmap Z Z :=
  (assign_group_ids init (token_smash_pairs token_smash_final)).2.

End Clusterer.

(** ** ReviewConsumptionPipeline: [worksheet_consume.py], [ssn_util.py] *)

Module Consume.

(** The entity types that [_setup_model_classes] accepts. *)
Inductive entity_type := person | organization.

Definition entity_name (e : entity_type) : string :=
  match e with
  | person => "person"
  | organization => "organization"
  end.

(** The polymorphic identities of [entity.py]. *)
Definition whitelist_identity (e : entity_type) : string := entity_name e +:+ "_whitelist".
Definition blacklist_identity (e : entity_type) : string := entity_name e +:+ "_blacklist".
Definition unmerge_identity (e : entity_type) : string := entity_name e +:+ "_unmerge".

(** The classification tables.  The surrogate [RecordID] keys, the comments
    and the timestamps that the database fills in are left out; [WhiteList]
    has [P20ID] as primary key and [Unmerge.TokenID] is unique. *)
Record WhiteListRow := {
  wl_P20ID : Z; wl_JobID : Z; wl_EntityType : string
}.

Record BlackListRow := {
  TokenID_1 : Z; TokenID_2 : Z; bl_JobID : Z; bl_EntityType : string
}.

Record InvalidSSNRow := {
  is_TokenID : Z; is_SSN : string; is_JobID : Z
}.

Record UnmergeRow := {
  um_TokenID : Z; um_GroupID : string; um_JobID : Z; CreateDT : Z;
  um_entity_type : string
}.

Record Database := {
  WhiteList : list WhiteListRow;
  BlackList : list BlackListRow;
  InvalidSSN : list InvalidSSNRow;
  Unmerge : list UnmergeRow
}.

(** A row of the reviewed worksheet, the six required columns.  [GroupID]
    and [SSN] are read as text; a blank cell is null. *)
Record WorksheetRow := {
  P20ID : Z;
  TokenID : Z;
  GroupID : option string;
  DoNotMerge : option Z;
  InvalidSSN_flag : option Z;
  SSN : option string
}.

(** The consumer: entity type, job identifier and the clock reading that
    stamps the unmerge rows. *)
Record Consumer := {
  kind : entity_type;
  job_id : Z;
  now : Z
}.

(** [truncate_tables]: delete the [Unmerge] rows whose discriminator is
    [f"{entity_type}_unmerge"]. *)
Definition truncate_tables (self : Consumer) (db : Database) : Database :=
  let entity_type_filter := unmerge_identity (kind self) in
  {| WhiteList := WhiteList db;
     BlackList := BlackList db;
     InvalidSSN := InvalidSSN db;
     Unmerge := filter (λ r, um_entity_type r ≠ entity_type_filter) (Unmerge db) |}.

(** [df[df["GroupID"].isnull()]] *)
Definition no_group (df : list WorksheetRow) : list WorksheetRow :=
  filter (λ r, GroupID r = None) df.

Definition whitelist_p20ids (df : list WorksheetRow) : list Z :=
  drop_duplicates id (P20ID <$> no_group df).

Definition whitelist_tokenids (df : list WorksheetRow) : list Z :=
  drop_duplicates id (TokenID <$> no_group df).

(** [self.whitelist_class(P20ID=p20id, JobID=self.job_id)] *)
Definition whitelist_obj (self : Consumer) (p20id : Z) : WhiteListRow :=
  {| wl_P20ID := p20id; wl_JobID := job_id self;
     wl_EntityType := whitelist_identity (kind self) |}.

(** [process_whitelist]; [None] when the bulk insert hits the primary key of
    [WhiteList]. *)
Definition process_whitelist (self : Consumer) (df : list WorksheetRow)
    (db : Database) : option Database :=
  let whitelist_objs := whitelist_obj self <$> whitelist_p20ids df in
  if decide (Exists (λ o, wl_P20ID o ∈ wl_P20ID <$> WhiteList db) whitelist_objs)
  then None
  else
    let tokenids := whitelist_tokenids df in
    Some {| WhiteList := WhiteList db ++ whitelist_objs;
            BlackList :=
              filter (λ b, ¬ (TokenID_1 b ∈ tokenids ∨ TokenID_2 b ∈ tokenids))
                     (BlackList db);
            InvalidSSN := InvalidSSN db;
            Unmerge := Unmerge db |}.

(** The pairs of one [P20ID] group. *)
Definition group_pairs (group : list WorksheetRow) : list (Z * Z) :=
  let dnm1 := filter (λ r, DoNotMerge r = Some 1) group in
  let dnm2 := filter (λ r, DoNotMerge r = Some 2) group in
  match dnm1 with
  | [row1] => (λ row2, (TokenID row1, TokenID row2)) <$> dnm2
  | _ => []
  end.

(** The pairs collected over [df.groupby("P20ID")], keys ascending. *)
Definition do_not_merge_pairs (df : list WorksheetRow) : list (Z * Z) :=
  p20id ← sorted_Z (drop_duplicates id (P20ID <$> df));
  group_pairs (filter (λ r, P20ID r = p20id) df).

(** [list(set(pairs))] *)
Definition unique_pairs (pairs : list (Z * Z)) : list (Z * Z) :=
  elements (list_to_set pairs : gset (Z * Z)).

Definition process_do_not_merge_pairs (self : Consumer) (df : list WorksheetRow)
    (db : Database) : Database :=
  let blacklist_objs :=
    (λ p, {| TokenID_1 := p.1; TokenID_2 := p.2; bl_JobID := job_id self;
             bl_EntityType := blacklist_identity (kind self) |})
      <$> unique_pairs (do_not_merge_pairs df) in
  {| WhiteList := WhiteList db;
     BlackList := BlackList db ++ blacklist_objs;
     InvalidSSN := InvalidSSN db;
     Unmerge := Unmerge db |}.

Definition isdigit (c : ascii) : bool :=
  (48 <=? nat_of_ascii c)%nat && (nat_of_ascii c <=? 57)%nat.

(** [str(ssn)]: a null cell prints as ["nan"]. *)
Definition str_of_cell (ssn : option string) : string := default "nan"%string ssn.

(** [clean_ssn]; [None] for the [ValueError]. *)
Definition clean_ssn (ssn : option string) : option string :=
  let ssn_str := str_of_cell ssn in
  let ssn_digits :=
    string_of_list_ascii (List.filter isdigit (list_ascii_of_string ssn_str)) in
  if decide (String.length ssn_digits = 9%nat) then Some ssn_digits else None.

Definition process_invalid_ssn (self : Consumer) (df : list WorksheetRow)
    (db : Database) : Database :=
  let invalid := filter (λ r, InvalidSSN_flag r = Some 1) df in
  let invalid_objs :=
    omap (λ row, ssn_cleaned ← clean_ssn (SSN row);
                 Some {| is_TokenID := TokenID row; is_SSN := ssn_cleaned;
                         is_JobID := job_id self |}) invalid in
  {| WhiteList := WhiteList db;
     BlackList := BlackList db;
     InvalidSSN := InvalidSSN db ++ invalid_objs;
     Unmerge := Unmerge db |}.

Definition unmerge_objs (self : Consumer) (df : list WorksheetRow) : list UnmergeRow :=
  let not_null_group := filter (λ r, GroupID r ≠ None) df in
  let unique_records := drop_duplicates TokenID not_null_group in
  (λ row, {| um_TokenID := TokenID row;
             um_GroupID := default ""%string (GroupID row);
             um_JobID := job_id self;
             CreateDT := now self;
             um_entity_type := unmerge_identity (kind self) |}) <$> unique_records.

(** [load_unmerge_records]; [None] when the bulk insert hits the unique
    constraint on [Unmerge.TokenID]. *)
Definition load_unmerge_records (self : Consumer) (df : list WorksheetRow)
    (db : Database) : option Database :=
  let objs := unmerge_objs self df in
  if decide (Exists (λ o, um_TokenID o ∈ um_TokenID <$> Unmerge db) objs)
  then None
  else Some {| WhiteList := WhiteList db;
               BlackList := BlackList db;
               InvalidSSN := InvalidSSN db;
               Unmerge := Unmerge db ++ objs |}.

(** The second transaction: the four steps in the order of [consume]. *)
Definition phase2 (self : Consumer) (df : list WorksheetRow) (db : Database)
    : option Database :=
  db1 ← process_whitelist self df db;
  let db2 := process_do_not_merge_pairs self df db1 in
  let db3 := process_invalid_ssn self df db2 in
  load_unmerge_records self df db3.

(** How a run ends: both transactions committed, or the second one rolled
    back (the exception propagates) with the truncation already committed. *)
Inductive outcome :=
  | Committed (db : Database)
  | RolledBack (db : Database).

Definition final_state (o : outcome) : Database :=
  match o with
  | Committed db => db
  | RolledBack db => db
  end.

Definition consume (self : Consumer) (worksheet_df : list WorksheetRow)
    (db : Database) : outcome :=
  (* Step 1: truncate, commit *)
  let db1 := truncate_tables self db in
  (* Step 2: process the worksheet, commit or roll back *)
  match phase2 self worksheet_df db1 with
  | Some db2 => Committed db2
  | None => RolledBack db1
  end.

End Consume.

(** ** NameCanonicalizer: [smashid_util.py] *)

Module Smash.

(** The embedding reads a [string] as a Python [str] of ASCII characters,
    one [ascii] for each; the statements about [create_smash_id] assume
    [name.isascii()].  (Outside ASCII [str.upper] can produce ASCII letters,
    "ß".upper() being "SS", which a byte-wise reading would miss.) *)
Definition isascii (name : string) : bool :=
  forallb (λ c, (nat_of_ascii c <? 128)%nat) (list_ascii_of_string name).

(** [c.upper()] on an ASCII character: a..z go to A..Z, the rest stays. *)
Definition upper (c : ascii) : ascii :=
  let n := nat_of_ascii c in
  if (97 <=? n)%nat && (n <=? 122)%nat then ascii_of_nat (n - 32) else c.

(** [c.isalpha() and c.isascii()] *)
Definition isalpha_ascii (c : ascii) : bool :=
  let n := nat_of_ascii c in
  ((65 <=? n)%nat && (n <=? 90)%nat) || ((97 <=? n)%nat && (n <=? 122)%nat).

(** The generator of [create_smash_id]: a character is kept when it is an
    ASCII letter not in [seen], and is then added to [seen]. *)
Fixpoint keep_unseen (seen : list ascii) (cs : list ascii) : list ascii :=
  match cs with
  | [] => []
  | c :: rest =>
      if isalpha_ascii c && negb (bool_decide (c ∈ seen))
      then c :: keep_unseen (c :: seen) rest
      else keep_unseen seen rest
  end.

Definition create_smash_id (name : string) : string :=
  string_of_list_ascii (keep_unseen [] (upper <$> list_ascii_of_string name)).

(** An uppercase ASCII letter, A..Z. *)
Definition is_upper_letter (c : ascii) : Prop :=
  (65 ≤ nat_of_ascii c ≤ 90)%nat.

End Smash.

(** ** Column ordering: [worksheet_utils.apply_column_order] *)

Module Columns.

(** An entry of the column order configuration: [ColumnType] 0 is required,
    1 optional, 2 a dynamic family. *)
Record entry := { ColumnName : string; ColumnType : Z }.

(** The two things the loop updates: the column labels of [worksheet_df]
    and [final_columns]. *)
Definition loop_state : Type := list string * list string.

Definition step (optional_column_lists : gmap string (list string))
    (st : loop_state) (e : entry) : loop_state :=
  let '(columns, final_columns) := st in
  if ColumnType e =? 0 then
    (* a missing required column is added to the frame, empty *)
    ((if decide (ColumnName e ∈ columns) then columns
      else columns ++ [ColumnName e]),
     final_columns ++ [ColumnName e])
  else if ColumnType e =? 1 then
    if decide (ColumnName e ∈ columns)
    then (columns, final_columns ++ [ColumnName e])
    else st
  else if ColumnType e =? 2 then
    let optional_columns := default [] (optional_column_lists !! ColumnName e) in
    let available_columns := filter (λ col, col ∈ columns) optional_columns in
    match available_columns with
    | [] => st
    | _ => (columns, final_columns ++ available_columns)
    end
  else st.

Definition required_columns (column_order : list entry) : list string :=
  ColumnName <$> filter (λ e, ColumnType e = 0) column_order.

(** [apply_column_order]: the column labels of the returned frame, in order;
    [None] for the [ValueError] on missing required columns. *)
Definition apply_column_order (worksheet_columns : list string)
    (column_order : list entry)
    (optional_column_lists : gmap string (list string)) : option (list string) :=
  let st := foldl (step optional_column_lists) (worksheet_columns, []) column_order in
  let missing_columns :=
    filter (λ col, col ∉ st.1) (required_columns column_order) in
  match missing_columns with
  | [] => Some st.2
  | _ => None
  end.

End Columns.

(** ** Notions used by the statements of Part III *)

(** What a bit is written as by the codec, whatever integer it is. *)
Definition as_bit (b : Z) : Z := if b =? 1 then 1 else 0.

(** One element of the enrollment bitmap: the sampled date [month] is
    covered by one of the periods. *)
Definition month_bit (periods : list (option K12.date * option K12.date))
    (month : K12.date) : Z :=
  if existsb (λ p, K12.cell_le p.1 (Some month) && K12.cell_le (Some month) p.2)
             periods
  then 1 else 0.

(** ** WorksheetBuilder: [worksheet_builder.py] *)

Module Builder.

(** A child record: the attributes that the fingerprints read. *)
Record Child := {
  TokenID : Z;
  FullName : option string;
  FirstName : option string;
  LastName : option string
}.

(** [c.isspace()] on an ASCII character: tab to carriage return, the four
    separators 28..31 and the space. *)
Definition isspace (c : ascii) : bool :=
  let n := nat_of_ascii c in
  ((9 <=? n)%nat && (n <=? 13)%nat) || ((28 <=? n)%nat && (n <=? 32)%nat).

Fixpoint lstrip (cs : list ascii) : list ascii :=
  match cs with
  | [] => []
  | c :: rest => if isspace c then lstrip rest else cs
  end.

(** [s.strip()] *)
Definition strip (s : string) : string :=
  string_of_list_ascii
    (reverse (lstrip (reverse (lstrip (list_ascii_of_string s))))).

(** [x or ''] on a nullable text attribute. *)
Definition or_empty (x : option string) : string := default ""%string x.

(** [c.FullName or f"{c.FirstName or ''} {c.LastName or ''}".strip()]: a
    null or empty [FullName] gives way to the two name parts. *)
Definition full_name (c : Child) : string :=
  let from_parts :=
    strip (String.append (or_empty (FirstName c))
                         (String.append " " (or_empty (LastName c)))) in
  match FullName c with
  | Some name => if String.eqb name "" then from_parts else name
  | None => from_parts
  end.

Definition str_le (a b : string) : Prop := String.leb a b = true.

#[export] Instance str_le_dec a b : Decision (str_le a b).
Proof. unfold str_le. apply _. Defined.

(** [sorted(set(values))] over strings. *)
Definition sorted_set (values : list string) : list string :=
  merge_sort str_le (drop_duplicates id values).

(** The aggregation of the SmashID column of one Token: the distinct
    SmashIDs of maximal length, sorted and joined with a bar; the empty
    string when every SmashID of the Token is empty. *)
Definition longest_smash (col : list string) : string :=
  if existsb (λ s, negb (String.eqb s "")) col then
    let longest := max_list (String.length <$> col) in
    String.concat "|" (sorted_set (filter (λ s, String.length s = longest) col))
  else ""%string.

(** [child_df]: the columns TokenID and SmashID. *)
Definition child_frame (children : list Child) : list (Z * string) :=
  (λ c, (TokenID c, Smash.create_smash_id (full_name c))) <$> children.

(** The SmashID column of the group of one Token in
    [child_df.groupby("TokenID")["SmashID"]]. *)
Definition smash_group (child_df : list (Z * string)) (t : Z) : list string :=
  (filter (λ r, r.1 = t) child_df).*2.

(** [_compute_smash_ids]: the items of the returned dict, Tokens ascending. *)
Definition _compute_smash_ids (children : list Child) : list (Z * string) :=
  let child_df := child_frame children in
  (λ t, (t, longest_smash (smash_group child_df t)))
    <$> sorted_Z (drop_duplicates id child_df.*1).

(** The first two steps of [build] after the children are loaded. *)
Definition group_map (children : list Child) : gmap Z Z :=
  let token_to_smash := _compute_smash_ids children in
  Clusterer.process_worksheet_group_ids token_to_smash.

(** [select_main], the inner function of
    [_overwrite_smashid_with_group_canonical]: the variants of the distinct
    non-null SmashIDs of a group, sorted by the key (-len(v), v); the first
    one, or the empty string when there is none. *)
Definition variants_of (smash_series : list (option string)) : list string :=
  s ← drop_duplicates id (omap id smash_series); Clusterer.split "|" s.

Definition select_main (smash_series : list (option string)) : string :=
  let variants := variants_of smash_series in
  default ""%string (Clusterer.first_sorted variants).



End Builder.

(** * Part II: lemmas and theorems *)

(** ** Frame helpers *)

Section frame_helper_facts.
Context {A K : Type} `{EqDecision K}.
Variable key : A → K.

Lemma drop_duplicates_from_elem seen rows r :
  r ∈ drop_duplicates_from key seen rows → r ∈ rows ∧ key r ∉ seen.
Proof.
  revert seen; induction rows as [|x rows IH]; intros seen; simpl.
  - by intros ?%elem_of_nil.
  - case_decide as Hx.
    + intros [? ?]%IH. split; [by right | done].
    + intros [->|Hr]%elem_of_cons; [split; [by left | done] |].
      apply IH in Hr as [? Hn]. split; [by right |].
      intros ?. apply Hn. by right.
Qed.

Lemma drop_duplicates_from_keys seen rows k :
  k ∈ key <$> drop_duplicates_from key seen rows ↔ k ∈ key <$> rows ∧ k ∉ seen.
Proof.
  revert seen; induction rows as [|x rows IH]; intros seen; csimpl.
  - split; [by intros ?%elem_of_nil | by intros [?%elem_of_nil _]].
  - case_decide as Hx; csimpl; rewrite ?elem_of_cons, IH, ?elem_of_cons.
    + split; [tauto |].
      intros [[->|?] ?]; [done | by split].
    + split; [intros [->|[? ?]]; tauto |].
      intros [[->|?] ?]; [by left |].
      destruct (decide (k = key x)) as [->|]; [by left | right].
      split; [done | intros [?|?]; tauto].
Qed.

Lemma drop_duplicates_from_NoDup seen rows :
  NoDup (key <$> drop_duplicates_from key seen rows).
Proof.
  revert seen; induction rows as [|x rows IH]; intros seen; csimpl.
  - constructor.
  - case_decide as Hx; [apply IH |].
    csimpl. constructor; [| apply IH].
    rewrite drop_duplicates_from_keys. intros [_ Hn]. apply Hn. by left.
Qed.

Lemma drop_duplicates_elem rows r : r ∈ drop_duplicates key rows → r ∈ rows.
Proof. intros H. by apply drop_duplicates_from_elem in H as [? _]. Qed.

Lemma drop_duplicates_keys rows k :
  k ∈ key <$> drop_duplicates key rows ↔ k ∈ key <$> rows.
Proof.
  unfold drop_duplicates. rewrite drop_duplicates_from_keys.
  split; [by intros [? _] | intros ?; split; [done | by intros ?%elem_of_nil]].
Qed.

Lemma drop_duplicates_NoDup rows : NoDup (key <$> drop_duplicates key rows).
Proof. apply drop_duplicates_from_NoDup. Qed.

(** The first row of a key survives, in front of the other kept rows of
    that key. *)
Lemma drop_duplicates_from_head (P : A → Prop) `{∀ x, Decision (P x)} seen rows :
  (∀ x y, key x = key y → P x → P y) →
  (∀ x, x ∈ rows → P x → key x ∉ seen) →
  head (filter P (drop_duplicates_from key seen rows)) = head (filter P rows).
Proof.
  intros Hkey. revert seen; induction rows as [|x rows IH]; intros seen Hseen;
    [done |]. simpl. case_decide as Hx.
  - rewrite filter_cons. case_decide as HP.
    + exfalso. by apply (Hseen x); [left | |].
    + apply IH. intros y Hy. apply Hseen. by right.
  - rewrite !filter_cons. case_decide as HP; [done |].
    apply IH. intros y Hy HPy [Heq|Hin]%elem_of_cons.
    + apply HP. by apply (Hkey y x).
    + revert Hin. apply Hseen; [by right | done].
Qed.

End frame_helper_facts.

Lemma filter_none {A} (P : A → Prop) `{∀ x, Decision (P x)} (l : list A) :
  Forall (λ x, ¬ P x) l → filter P l = [].
Proof.
  induction 1 as [|x l Hx _ IH]; [done |].
  by rewrite filter_cons_False.
Qed.

Lemma id_fmap {A} (l : list A) : id <$> l = l.
Proof. apply list_fmap_id. Qed.

Lemma drop_duplicates_id_elem {A} `{EqDecision A} (l : list A) x :
  x ∈ drop_duplicates id l ↔ x ∈ l.
Proof.
  pose proof (drop_duplicates_keys id l x) as Hk.
  by rewrite !id_fmap in Hk.
Qed.

Lemma drop_duplicates_id_NoDup {A} `{EqDecision A} (l : list A) :
  NoDup (drop_duplicates id l).
Proof.
  pose proof (drop_duplicates_NoDup id l) as Hk. by rewrite id_fmap in Hk.
Qed.

Lemma sorted_Z_elem (l : list Z) x : x ∈ sorted_Z l ↔ x ∈ l.
Proof. unfold sorted_Z. by rewrite merge_sort_Permutation. Qed.

(** ** TemporalBitmapCodec *)

Lemma is_char_inv s : Codec.is_char s → ∃ c, s = String c EmptyString.
Proof.
  destruct s as [|c [|]]; unfold Codec.is_char; simpl; try discriminate.
  intros _. by exists c.
Qed.

Lemma join_cons x parts :
  Codec.join (x :: parts) = String.append x (Codec.join parts).
Proof. reflexivity. Qed.

Lemma append_char c s : String.append (String c EmptyString) s = String c s.
Proof. reflexivity. Qed.

Lemma encode_length seq p a :
  Codec.is_char p → Codec.is_char a →
  String.length (Codec.convert_bitarray_to_string seq p a) = length seq.
Proof.
  intros [cp ->]%is_char_inv [ca ->]%is_char_inv.
  unfold Codec.convert_bitarray_to_string.
  induction seq as [|b seq IH]; [done |].
  rewrite fmap_cons, join_cons.
  destruct (b =? 1); rewrite append_char; cbn [String.length length];
    by f_equal.
Qed.

Lemma decode_encode seq p a :
  Codec.is_char p → Codec.is_char a → p ≠ a → Codec.is_bits seq →
  Codec.convert_string_to_bitarray (Codec.convert_bitarray_to_string seq p a) p
  = seq.
Proof.
  intros [cp ->]%is_char_inv [ca ->]%is_char_inv Hne Hbits.
  unfold Codec.convert_string_to_bitarray, Codec.convert_bitarray_to_string,
    Codec.chars.
  induction Hbits as [|b seq Hb _ IH]; [done |].
  rewrite fmap_cons, join_cons.
  destruct Hb as [-> | ->]; cbn [Z.eqb Pos.eqb]; rewrite append_char;
    cbn [list_ascii_of_string]; rewrite !fmap_cons; f_equal; try exact IH.
  - destruct (String.eqb_spec (String ca EmptyString) (String cp EmptyString));
      congruence.
  - by rewrite String.eqb_refl.
Qed.

(** C9, as stated, fails when the two markers are the same character: the
    sequence [0] is written as the present marker and read back as [1]. *)
Lemma codec_same_marker_not_inverse :
  Codec.is_bits [0] ∧ Codec.is_char "#" ∧
  Codec.convert_string_to_bitarray
    (Codec.convert_bitarray_to_string [0] "#" "#") "#" = [1] ∧
  Codec.convert_string_to_bitarray
    (Codec.convert_bitarray_to_string [0] "#" "#") "#" ≠ [0].
Proof.
  split; [constructor; [lia | constructor] |].
  split; [reflexivity |]. split; [reflexivity | discriminate].
Qed.

(** C9 (amended): for every sequence of 0s and 1s and every pair of DISTINCT
    marker characters, decoding the encoded string with the same present
    marker gives the sequence back, and the encoded string is as long as the
    sequence. *)
Theorem codec_roundtrip seq presentChar absentChar :
  Codec.is_bits seq →
  Codec.is_char presentChar → Codec.is_char absentChar →
  presentChar ≠ absentChar →
  Codec.convert_string_to_bitarray
    (Codec.convert_bitarray_to_string seq presentChar absentChar) presentChar
  = seq
  ∧ String.length (Codec.convert_bitarray_to_string seq presentChar absentChar)
    = length seq.
Proof.
  intros Hbits Hp Ha Hne. split.
  - by apply decode_encode.
  - by apply encode_length.
Qed.

Lemma codec_roundtrip_witness :
  Codec.convert_string_to_bitarray
    (Codec.convert_bitarray_to_string [1; 0; 0; 1] "#" "_") "#" = [1; 0; 0; 1]
  ∧ String.length (Codec.convert_bitarray_to_string [1; 0; 0; 1] "#" "_")
    = 4%nat.
Proof.
  apply (codec_roundtrip [1; 0; 0; 1] "#" "_").
  - repeat (constructor; [lia |]). constructor.
  - reflexivity.
  - reflexivity.
  - discriminate.
Defined.

(** ** EnrollmentAggregator *)

Section k12_facts.
Import K12.

Lemma cell_le_Some a b : cell_le a b = true → is_Some a ∧ is_Some b.
Proof. destruct a, b; simpl; try discriminate. by split. Qed.

Lemma preprocess_data_elem k12_df p :
  p ∈ preprocess_data k12_df →
  ∃ r, r ∈ k12_df ∧ raw p = r
       ∧ cell_le (EnrollmentBeginDT r) (Some (mkdate (OrganizationYear r) 8 31)) = true
       ∧ EndDT p = fillna (EnrollmentEndDT r) (mkdate (OrganizationYear r - 1) 9 1).
Proof.
  unfold preprocess_data.
  intros (q & -> & Hq)%list_elem_of_fmap.
  apply list_elem_of_filter in Hq as [Hle (r & -> & Hr)%list_elem_of_fmap].
  exists r. simpl in *. done.
Qed.

Lemma fillna_is_Some {T} (c : option T) d : is_Some (fillna c d).
Proof. destruct c; by eexists. Qed.

Lemma enrollment_groups_period rows g period :
  g ∈ enrollment_groups rows → period ∈ g.2 →
  ∃ r, r ∈ rows ∧ period = (EnrollmentBeginDT (raw r), EndDT r).
Proof.
  unfold enrollment_groups.
  intros (k & -> & _)%list_elem_of_fmap. simpl.
  intros (r & -> & Hr)%list_elem_of_fmap.
  apply list_elem_of_filter in Hr as [_ Hr]. by exists r.
Qed.

(** C10: a row whose begin date is null fails the comparison with the
    August 31 anchor and is dropped; every row that is kept has a begin date,
    so the September 1 default is only applied to rows with a begin date, and
    every period handed to the bitmap computation has both dates. *)
Theorem null_begin_never_reaches_bitmaps (k12_df : list EnrollmentRow) :
  (∀ r, EnrollmentBeginDT r = None → r ∉ raw <$> preprocess_data k12_df)
  ∧ (∀ p, p ∈ preprocess_data k12_df →
          raw p ∈ k12_df
          ∧ is_Some (EnrollmentBeginDT (raw p))
          ∧ EndDT p = fillna (EnrollmentEndDT (raw p))
                        (mkdate (OrganizationYear (raw p) - 1) 9 1))
  ∧ (∀ g period, g ∈ enrollment_groups (preprocess_data k12_df) →
                 period ∈ g.2 → is_Some period.1 ∧ is_Some period.2).
Proof.
  assert (Hkept : ∀ p, p ∈ preprocess_data k12_df →
            raw p ∈ k12_df
            ∧ is_Some (EnrollmentBeginDT (raw p))
            ∧ EndDT p = fillna (EnrollmentEndDT (raw p))
                          (mkdate (OrganizationYear (raw p) - 1) 9 1)).
  { intros p (r & Hr & <- & Hle & Hend)%preprocess_data_elem.
    apply cell_le_Some in Hle as [Hb _]. done. }
  split; [| split; [done |]].
  - intros r Hnull (p & -> & Hp)%list_elem_of_fmap.
    apply Hkept in Hp as (_ & [b Hb] & _). congruence.
  - intros g period Hg Hperiod.
    destruct (enrollment_groups_period _ _ _ Hg Hperiod) as (p & Hp & ->).
    apply Hkept in Hp as (_ & Hb & ->). simpl. split; [done |].
    apply fillna_is_Some.
Qed.

Lemma null_begin_never_reaches_bitmaps_witness :
  let r1 := {| TokenID := 1; OrganizationYear := 2005;
               EnrollmentBeginDT := None;
               EnrollmentEndDT := None |} in
  let r2 := {| TokenID := 2; OrganizationYear := 2005;
               EnrollmentBeginDT := Some (mkdate 2004 9 1);
               EnrollmentEndDT := Some (mkdate 2005 6 30) |} in
  (r1 ∉ raw <$> preprocess_data [r1; r2])
  ∧ generate_enrollment_bitarrays (preprocess_data [r1; r2])
    = [(2, 2005, [1; 1; 1; 1; 1; 1; 1; 1; 1; 1; 0; 0])].
Proof.
  intros r1 r2. split.
  - apply (proj1 (null_begin_never_reaches_bitmaps [r1; r2])). reflexivity.
  - reflexivity.
Defined.

(** *** Trimming of the pivot *)

Lemma first_index_None {T} (p : T → bool) l i :
  Forall (λ x, p x = false) l → first_index p l i = None.
Proof.
  intros Hl. revert i. induction Hl as [|x l Hx _ IH]; intros i; [done |].
  simpl. rewrite Hx. apply IH.
Qed.

Lemma first_index_app {T} (p : T → bool) pre x rest i :
  Forall (λ x, p x = false) pre → p x = true →
  first_index p (pre ++ x :: rest) i = Some (i + Z.of_nat (length pre)).
Proof.
  intros Hpre Hx. revert i. induction Hpre as [|y pre Hy _ IH]; intros i; simpl.
  - rewrite Hx. f_equal. lia.
  - rewrite Hy, IH. f_equal. lia.
Qed.

Lemma iloc_columns_middle {T} (pre mid suf : list T) :
  iloc_columns (Z.of_nat (length pre))
               (Z.of_nat (length pre + length mid)) (pre ++ mid ++ suf) = mid.
Proof.
  unfold iloc_columns. rewrite !Nat2Z.id.
  rewrite app_assoc, take_app_length', drop_app_length; [done |].
  by rewrite length_app.
Qed.

(** When no school year has an enrollment the two defaults (first column,
    last column) select the whole frame. *)
Lemma trim_all_zero {L} (k12_pivot : pivot_frame L) :
  Forall (λ c, no_enrollment c.2 = true) k12_pivot →
  trim_non_enrollment_years k12_pivot = k12_pivot.
Proof.
  intros Hzero. unfold trim_non_enrollment_years.
  assert (Hz : Forall (λ c : L * list cell, negb (no_enrollment c.2) = false) k12_pivot).
  { eapply Forall_impl; [exact Hzero |]. intros c ->. done. }
  rewrite (first_index_None _ _ _ Hz).
  rewrite (first_index_None _ (reverse k12_pivot)); [| by apply Forall_reverse].
  simpl. unfold iloc_columns.
  replace (Z.to_nat (Z.of_nat (length k12_pivot) - 1 + 1)) with (length k12_pivot) by lia.
  by rewrite firstn_all.
Qed.

(** When some school year has an enrollment, exactly the leading and the
    trailing run of empty years go; what lies between the first and the last
    enrolled year stays, empty years included. *)
Lemma trim_enrolled {L} (pre suf mid : pivot_frame L) first_col last_col :
  Forall (λ c, no_enrollment c.2 = true) pre →
  Forall (λ c, no_enrollment c.2 = true) suf →
  no_enrollment first_col.2 = false → no_enrollment last_col.2 = false →
  trim_non_enrollment_years (pre ++ (first_col :: mid ++ [last_col]) ++ suf)
  = first_col :: mid ++ [last_col]
  ∧ trim_non_enrollment_years (pre ++ [first_col] ++ suf) = [first_col].
Proof.
  intros Hpre Hsuf Hfirst Hlast.
  assert (Hneg : ∀ l : pivot_frame L,
            Forall (λ c, no_enrollment c.2 = true) l →
            Forall (λ c : L * list cell, negb (no_enrollment c.2) = false) l).
  { intros l Hl. eapply Forall_impl; [exact Hl |]. by intros c ->. }
  assert (Hgen : ∀ (body : pivot_frame L) f l,
            head body = Some f → last body = Some l →
            no_enrollment f.2 = false → no_enrollment l.2 = false →
            trim_non_enrollment_years (pre ++ body ++ suf) = body).
  { intros body f l Hhead Hlast' Hf Hl.
    destruct body as [|b body]; [done |]. simpl in Hhead. simplify_eq.
    unfold trim_non_enrollment_years.
    rewrite (first_index_app _ pre f (body ++ suf) 0);
      [| by apply Hneg | by rewrite Hf].
    apply last_Some in Hlast' as [body' Hbody'].
    assert (Hrev : reverse (pre ++ (f :: body) ++ suf)
                   = reverse suf ++ l :: (reverse body' ++ reverse pre)).
    { rewrite Hbody', !reverse_app, reverse_singleton. simpl.
      by rewrite <- app_assoc. }
    rewrite Hrev.
    rewrite (first_index_app _ (reverse suf) l);
      [| apply Forall_reverse; by apply Hneg | by rewrite Hl].
    simpl default. rewrite length_reverse.
    replace (0 + Z.of_nat (length pre)) with (Z.of_nat (length pre)) by lia.
    replace (Z.of_nat (length (pre ++ (f :: body) ++ suf)) - 1
             - (0 + Z.of_nat (length suf)) + 1)
      with (Z.of_nat (length pre + length (f :: body))).
    - apply iloc_columns_middle.
    - rewrite !length_app. lia. }
  split.
  - apply (Hgen _ first_col last_col); [done | | done | done].
    change (first_col :: mid ++ [last_col]) with ((first_col :: mid) ++ [last_col]).
    apply last_snoc.
  - by apply (Hgen [first_col] first_col first_col).
Qed.

Lemma trim_enrolled_witness :
  trim_non_enrollment_years
    [(2003, [Some [0; 0]]); (2004, [Some [0; 1]]); (2005, [None]);
     (2006, [Some [1; 1]]); (2007, [Some [0; 0]])]
  = [(2004, [Some [0; 1]]); (2005, [None]); (2006, [Some [1; 1]])].
Proof.
  apply (proj1 (trim_enrolled [(2003, [Some [0; 0]])] [(2007, [Some [0; 0]])]
                  [(2005, [None])] (2004, [Some [0; 1]]) (2006, [Some [1; 1]])
                  ltac:(by repeat constructor) ltac:(by repeat constructor)
                  eq_refl eq_refl)).
Defined.

(** C7, the case that the code misses: one enrollment from 20 to 25 August
    2005 covers none of the twelve sampled dates, so the pivot has the single
    school year 2005, all zero; the trimming returns this column where the
    claim asks for a result without school-year columns. *)
Theorem trim_keeps_all_zero_pivot :
  let row := {| TokenID := 1; OrganizationYear := 2005;
                EnrollmentBeginDT := Some (mkdate 2005 8 20);
                EnrollmentEndDT := Some (mkdate 2005 8 25) |} in
  let k12_pivot := pivot (generate_enrollment_bitarrays (preprocess_data [row])) in
  k12_pivot = [(2005, [Some [0; 0; 0; 0; 0; 0; 0; 0; 0; 0; 0; 0]])]
  ∧ Forall (λ c, no_enrollment c.2 = true) k12_pivot
  ∧ trim_non_enrollment_years k12_pivot = k12_pivot
  ∧ trim_non_enrollment_years k12_pivot ≠ [].
Proof.
  intros row k12_pivot.
  assert (Hp : k12_pivot = [(2005, [Some [0; 0; 0; 0; 0; 0; 0; 0; 0; 0; 0; 0]])])
    by reflexivity.
  assert (Hz : Forall (λ c, no_enrollment c.2 = true) k12_pivot)
    by (rewrite Hp; by repeat constructor).
  split; [done |]. split; [done |].
  rewrite (trim_all_zero _ Hz). split; [done |]. by rewrite Hp.
Qed.

End k12_facts.

(** ** WageAggregator *)

Section wage_facts.
Import Wage.

(** The character at a position of an encoded bitmap. *)
Lemma get_encode (bits : list Z) cp ca i :
  String.get i (Codec.convert_bitarray_to_string bits
                  (String cp EmptyString) (String ca EmptyString))
  = (λ b, if b =? 1 then cp else ca) <$> bits !! i.
Proof.
  unfold Codec.convert_bitarray_to_string.
  revert i; induction bits as [|b bits IH]; intros i; [by destruct i |].
  rewrite fmap_cons, join_cons.
  destruct i as [|i]; destruct (b =? 1) eqn:Hb; rewrite append_char; simpl;
    rewrite ?Hb; try done; apply IH.
Qed.

Lemma presence_string_get df token year i q :
  QUARTERS !! i = Some q →
  String.get i
    (Codec.convert_bitarray_to_string
       ((λ q, if present df token year q then 1 else 0) <$> QUARTERS) "#" "_")
  = Some (if present df token year q then "#"%char else "_"%char).
Proof.
  intros Hq. rewrite get_encode, list_lookup_fmap, Hq. simpl.
  by destruct (present df token year q).
Qed.

Lemma cell_rows_filter df token year q :
  q ∈ QUARTERS →
  cell_rows df token year q = filter (in_cell token year q) df.
Proof.
  intros Hq. unfold cell_rows, quarter_rows. rewrite list_filter_filter.
  apply list_filter_iff. intros r. unfold in_cell. split; [tauto |].
  intros (? & ? & ->). done.
Qed.

(** Deduplication keeps the first row of every cell in front. *)
Lemma housekeep_head wage_df token year q :
  head (filter (in_cell token year q) (_housekeep wage_df))
  = head (filter (in_cell token year q) (normalize <$> wage_df)).
Proof.
  unfold _housekeep, drop_duplicates.
  apply drop_duplicates_from_head.
  - intros x y Hk. unfold dedup_key in Hk. unfold in_cell.
    injection Hk as Ht Hy Hc _ _. intros (? & ? & ?). repeat split; congruence.
  - intros x _ _ ?%elem_of_nil. done.
Qed.

Lemma prepare_presence_elem wage_df token cols :
  (token, cols) ∈ prepare_presence wage_df →
  cols = (λ year,
            (year,
             Codec.convert_bitarray_to_string
               ((λ q, if present (_housekeep wage_df) token year q then 1 else 0)
                  <$> QUARTERS) "#" "_")) <$> years_of (_housekeep wage_df).
Proof.
  unfold prepare_presence. destruct wage_df as [|r0 df]; [by intros ?%elem_of_nil |].
  unfold _presence_matrix.
  intros (t & Heq & _)%list_elem_of_fmap. by simplify_eq.
Qed.

(** C8, as stated, fails when a quarter has two different rows: the pivot
    takes the first one.  Token 1 has, for the first quarter of 2020, a row
    with amount 0 and then a row with amount 100.00; both survive the
    housekeeping, a row with a positive amount exists, and the presence bit of
    that quarter is absent. *)
Lemma presence_bit_ignores_later_rows :
  let first_row := {| TokenID := 1; OrganizationYear := 2020; TermTypeCD := "1";
                      WageAMT := 0; WageHR := 0 |} in
  let later_row := {| TokenID := 1; OrganizationYear := 2020; TermTypeCD := "1";
                      WageAMT := 10000; WageHR := 4000 |} in
  _housekeep [first_row; later_row] = [first_row; later_row]
  ∧ 0 < WageAMT later_row
  ∧ prepare_presence [first_row; later_row] = [(1, [(2020, "____"%string)])].
Proof. by vm_compute. Qed.

(** C8 (amended): in the presence frame, for every Token row, year column and
    quarter, the character of that quarter is the present marker iff the
    FIRST input row of that Token, year and quarter (sentinels normalized)
    has an amount above zero; so a present marker implies that some input
    row of the cell has a positive amount, and the character is the absent
    marker otherwise. *)
Theorem presence_bit_first_row wage_df token cols year s i q :
  (token, cols) ∈ prepare_presence wage_df →
  (year, s) ∈ cols →
  QUARTERS !! i = Some q →
  (String.get i s = Some "#"%char
   ↔ ∃ r, head (filter (in_cell token year q) (normalize <$> wage_df)) = Some r
          ∧ 0 < WageAMT r)
  ∧ (String.get i s = Some "#"%char →
     ∃ r, r ∈ wage_df ∧ in_cell token year q r ∧ 0 < WageAMT (normalize r))
  ∧ (String.get i s ≠ Some "#"%char → String.get i s = Some "_"%char).
Proof.
  intros Hrow Hcol Hq.
  apply prepare_presence_elem in Hrow. subst cols.
  apply list_elem_of_fmap in Hcol as (y & Heq & _).
  assert (Hy : y = year) by congruence. subst y.
  assert (Hget : String.get i s
                 = Some (if present (_housekeep wage_df) token year q
                         then "#"%char else "_"%char)).
  { replace s with (year, s).2 by done. rewrite Heq. simpl.
    by apply presence_string_get. }
  rewrite Hget. clear Hget Heq.
  assert (Hq' : q ∈ QUARTERS) by (by eapply list_elem_of_lookup_2).
  unfold present. rewrite (cell_rows_filter _ _ _ _ Hq'), housekeep_head.
  assert (Hmain :
    Some (if match head (filter (in_cell token year q) (normalize <$> wage_df)) with
             | Some r => HasWages r
             | None => false
             end then "#"%char else "_"%char)
    = Some "#"%char
    ↔ ∃ r, head (filter (in_cell token year q) (normalize <$> wage_df)) = Some r
           ∧ 0 < WageAMT r).
  { destruct (head (filter (in_cell token year q) (normalize <$> wage_df)))
      as [r|] eqn:Hhead.
    - unfold HasWages. destruct (0 <? WageAMT r) eqn:Hpos; simpl.
      + split; [| done]. intros _. exists r. split; [done |]. lia.
      + split; [discriminate |]. intros (r' & ? & ?). simplify_eq. lia.
    - simpl. split; [discriminate |]. by intros (r' & ? & ?). }
  split; [exact Hmain |]. split.
  - intros Hget. apply Hmain in Hget as (r & Hhead & Hpos).
    apply head_Some_elem_of in Hhead.
    apply list_elem_of_filter in Hhead as [Hcell (r0 & -> & Hr0)%list_elem_of_fmap].
    exists r0. split; [done |]. split; [| done].
    destruct Hcell as (? & ? & ?). done.
  - destruct (head (filter (in_cell token year q) (normalize <$> wage_df))) as [r|];
      [destruct (HasWages r) |]; simpl; done.
Qed.

Lemma presence_bit_first_row_witness :
  let rows := [ {| TokenID := 2; OrganizationYear := 2021; TermTypeCD := "3";
                   WageAMT := 50000; WageHR := 100 |};
                {| TokenID := 2; OrganizationYear := 2021; TermTypeCD := "4";
                   WageAMT := -999999; WageHR := -999900 |} ] in
  String.get 2 "__#_" = Some "#"%char
  ↔ ∃ r, head (filter (in_cell 2 2021 "3") (normalize <$> rows)) = Some r
         ∧ 0 < WageAMT r.
Proof.
  intros rows.
  apply (presence_bit_first_row rows 2 [(2021, "__#_"%string)] 2021 "__#_" 2%nat "3").
  - vm_compute. left.
  - left.
  - reflexivity.
Defined.

End wage_facts.

(** ** ReviewConsumptionPipeline *)

Section consume_facts.
Import Consume.

(** The steps of the second transaction touch one table each, except the
    whitelist step, which also deletes from the blacklist. *)
Lemma process_whitelist_Some self df db db' :
  process_whitelist self df db = Some db' →
  WhiteList db' = WhiteList db ++ (whitelist_obj self <$> whitelist_p20ids df)
  ∧ BlackList db'
    = filter (λ b, ¬ (TokenID_1 b ∈ whitelist_tokenids df
                      ∨ TokenID_2 b ∈ whitelist_tokenids df)) (BlackList db)
  ∧ InvalidSSN db' = InvalidSSN db
  ∧ Unmerge db' = Unmerge db
  ∧ Forall (λ p, p ∉ wl_P20ID <$> WhiteList db) (whitelist_p20ids df).
Proof.
  unfold process_whitelist. case_decide as Hdup; [discriminate |].
  intros [= <-]. simpl. repeat split; try done.
  apply Forall_forall. intros p Hp Hin. apply Hdup.
  apply Exists_exists. exists (whitelist_obj self p). split; [| done].
  apply list_elem_of_fmap. by exists p.
Qed.

Lemma load_unmerge_records_Some self df db db' :
  load_unmerge_records self df db = Some db' →
  WhiteList db' = WhiteList db ∧ BlackList db' = BlackList db
  ∧ InvalidSSN db' = InvalidSSN db
  ∧ Unmerge db' = Unmerge db ++ unmerge_objs self df.
Proof.
  unfold load_unmerge_records. case_decide; [discriminate |].
  by intros [= <-].
Qed.

Lemma phase2_Some self df db db' :
  phase2 self df db = Some db' →
  WhiteList db' = WhiteList db ++ (whitelist_obj self <$> whitelist_p20ids df)
  ∧ Unmerge db' = Unmerge db ++ unmerge_objs self df
  ∧ Forall (λ p, p ∉ wl_P20ID <$> WhiteList db) (whitelist_p20ids df).
Proof.
  unfold phase2. destruct (process_whitelist self df db) as [db1|] eqn:H1;
    [| discriminate]. simpl.
  intros (Hw & _ & _ & Hu)%load_unmerge_records_Some.
  apply process_whitelist_Some in H1 as (Hw1 & _ & _ & Hu1 & Hfresh).
  simpl in *. rewrite Hw, Hu. by rewrite Hw1, Hu1.
Qed.

Lemma unmerge_objs_kind self df o :
  o ∈ unmerge_objs self df → um_entity_type o = unmerge_identity (kind self).
Proof. unfold unmerge_objs. by intros (r & -> & _)%list_elem_of_fmap. Qed.

Lemma truncate_tables_Unmerge self db r :
  r ∈ Unmerge (truncate_tables self db)
  ↔ r ∈ Unmerge db ∧ um_entity_type r ≠ unmerge_identity (kind self).
Proof. unfold truncate_tables. simpl. rewrite list_elem_of_filter. tauto. Qed.




(** C2, as stated, fails: the invalid-SSN table is not replaced.  Over one
    worksheet row flagged invalid-SSN, the second run commits and leaves the
    invalid-SSN row twice. *)
Lemma second_run_duplicates_invalid_ssn :
  let self := {| kind := person; job_id := 7; now := 0 |} in
  let ws := [ {| P20ID := 1; TokenID := 10; GroupID := Some "1"%string;
                 DoNotMerge := None; InvalidSSN_flag := Some 1;
                 SSN := Some "123-45-6789"%string |} ] in
  let db0 := {| WhiteList := []; BlackList := []; InvalidSSN := []; Unmerge := [] |} in
  let flagged := {| is_TokenID := 10; is_SSN := "123456789"; is_JobID := 7 |} in
  let split_row := {| um_TokenID := 10; um_GroupID := "1"; um_JobID := 7;
                      CreateDT := 0; um_entity_type := "person_unmerge" |} in
  let once := {| WhiteList := []; BlackList := []; InvalidSSN := [flagged];
                 Unmerge := [split_row] |} in
  let twice := {| WhiteList := []; BlackList := [];
                  InvalidSSN := [flagged; flagged]; Unmerge := [split_row] |} in
  consume self ws db0 = Committed once
  ∧ consume self ws once = Committed twice
  ∧ twice ≠ once.
Proof. by vm_compute. Qed.

Lemma filter_unmerge_objs self self' df :
  kind self' = kind self →
  filter (λ r, um_entity_type r ≠ unmerge_identity (kind self'))
         (unmerge_objs self df) = [].
Proof.
  intros Hk. apply filter_none, Forall_forall.
  intros o Ho%unmerge_objs_kind Hne. by rewrite Hk in Hne.
Qed.

(** C2 (amended): when two runs in succession over the same worksheet and
    entity kind both commit, the unmerge table ends as the second run alone
    would leave it, equal to the state after the first run when job id and
    clock are the same, and the whitelist table is the one of the first run.
    (The blacklist and invalid-SSN rows of the worksheet are inserted by
    every run.) *)
Theorem second_run_replaces_unmerge self self' worksheet_df db db1 db2 :
  kind self' = kind self →
  consume self worksheet_df db = Committed db1 →
  consume self' worksheet_df db1 = Committed db2 →
  Unmerge db2 = Unmerge (truncate_tables self' db) ++ unmerge_objs self' worksheet_df
  ∧ (self' = self → Unmerge db2 = Unmerge db1)
  ∧ WhiteList db2 = WhiteList db1.
Proof.
  intros Hkind. unfold consume.
  destruct (phase2 self worksheet_df (truncate_tables self db)) as [d1|] eqn:H1;
    [| discriminate]. intros [= ->].
  destruct (phase2 self' worksheet_df (truncate_tables self' db1)) as [d2|] eqn:H2;
    [| discriminate]. intros [= ->].
  apply phase2_Some in H1 as (Hw1 & Hu1 & _).
  apply phase2_Some in H2 as (Hw2 & Hu2 & Hfresh).
  assert (Hu : Unmerge db2
               = Unmerge (truncate_tables self' db) ++ unmerge_objs self' worksheet_df).
  { rewrite Hu2. f_equal. simpl. rewrite Hu1. simpl.
    rewrite filter_app, (filter_unmerge_objs self self') by done.
    rewrite app_nil_r, list_filter_filter. apply list_filter_iff.
    intros r. rewrite Hkind. tauto. }
  split; [exact Hu |]. split.
  - intros ->. by rewrite Hu, Hu1.
  - assert (Hnil : whitelist_p20ids worksheet_df = []).
    { change (WhiteList (truncate_tables self' db1)) with (WhiteList db1) in Hfresh.
      rewrite Hw1 in Hfresh.
      remember (whitelist_p20ids worksheet_df) as ps eqn:Hps in *.
      destruct ps as [|p ps]; [done |]. exfalso.
      apply Forall_cons in Hfresh as [Hp _]. apply Hp.
      rewrite fmap_app. apply elem_of_app. right. rewrite fmap_cons. by left. }
    rewrite Hw2, Hnil. simpl. by rewrite app_nil_r.
Qed.

Lemma second_run_replaces_unmerge_witness :
  let self := {| kind := person; job_id := 7; now := 0 |} in
  let ws := [ {| P20ID := 1; TokenID := 10; GroupID := Some "1"%string;
                 DoNotMerge := None; InvalidSSN_flag := Some 1;
                 SSN := Some "123-45-6789"%string |} ] in
  let db0 := {| WhiteList := []; BlackList := []; InvalidSSN := []; Unmerge := [] |} in
  let flagged := {| is_TokenID := 10; is_SSN := "123456789"; is_JobID := 7 |} in
  let split_row := {| um_TokenID := 10; um_GroupID := "1"; um_JobID := 7;
                      CreateDT := 0; um_entity_type := "person_unmerge" |} in
  let once := {| WhiteList := []; BlackList := []; InvalidSSN := [flagged];
                 Unmerge := [split_row] |} in
  let twice := {| WhiteList := []; BlackList := [];
                  InvalidSSN := [flagged; flagged]; Unmerge := [split_row] |} in
  Unmerge twice = Unmerge (truncate_tables self db0) ++ unmerge_objs self ws
  ∧ (self = self → Unmerge twice = Unmerge once)
  ∧ WhiteList twice = WhiteList once.
Proof.
  intros self ws db0 flagged split_row once twice.
  apply (second_run_replaces_unmerge self self ws db0 once twice);
    reflexivity.
Defined.

(** *** Whitelist *)

Lemma whitelist_p20ids_elem df p :
  p ∈ whitelist_p20ids df ↔ ∃ r, r ∈ df ∧ P20ID r = p ∧ GroupID r = None.
Proof.
  unfold whitelist_p20ids, no_group.
  rewrite drop_duplicates_id_elem, list_elem_of_fmap. split.
  - intros (r & -> & [Hnull Hr]%list_elem_of_filter). by exists r.
  - intros (r & Hr & <- & Hnull). exists r. split; [done |].
    by apply list_elem_of_filter.
Qed.

Lemma whitelist_tokenids_elem df t :
  t ∈ whitelist_tokenids df ↔ ∃ r, r ∈ df ∧ TokenID r = t ∧ GroupID r = None.
Proof.
  unfold whitelist_tokenids, no_group.
  rewrite drop_duplicates_id_elem, list_elem_of_fmap. split.
  - intros (r & -> & [Hnull Hr]%list_elem_of_filter). by exists r.
  - intros (r & Hr & <- & Hnull). exists r. split; [done |].
    by apply list_elem_of_filter.
Qed.




(** X15: What the whitelist step does reach: of the blacklist pairs that are in
    the table when the step runs, none that names a Token of a row without
    GroupID is left. *)
Lemma process_whitelist_clears_blacklist self df db db' b r :
  process_whitelist self df db = Some db' →
  b ∈ BlackList db' → r ∈ df → GroupID r = None →
  TokenID_1 b ≠ TokenID r ∧ TokenID_2 b ≠ TokenID r.
Proof.
  intros (_ & -> & _)%process_whitelist_Some [Hb _]%list_elem_of_filter Hr Hnull.
  assert (Ht : TokenID r ∈ whitelist_tokenids df).
  { apply whitelist_tokenids_elem. by exists r. }
  split; intros Heq; apply Hb; rewrite Heq; tauto.
Qed.

(** C4, the case that the code misses: the do-not-merge pairs are inserted
    after the whitelist step has cleared the blacklist.  Identity 1 has two
    rows, both without GroupID, with do-not-merge codes 1 and 2: the run
    commits with Identity 1 whitelisted and with the pair of its two Tokens in
    the blacklist. *)
Theorem whitelisted_tokens_paired_by_same_run :
  let self := {| kind := person; job_id := 7; now := 0 |} in
  let ws := [ {| P20ID := 1; TokenID := 10; GroupID := None;
                 DoNotMerge := Some 1; InvalidSSN_flag := None; SSN := None |};
              {| P20ID := 1; TokenID := 11; GroupID := None;
                 DoNotMerge := Some 2; InvalidSSN_flag := None; SSN := None |} ] in
  let db0 := {| WhiteList := []; BlackList := []; InvalidSSN := []; Unmerge := [] |} in
  consume self ws db0
  = Committed
      {| WhiteList := [ {| wl_P20ID := 1; wl_JobID := 7;
                           wl_EntityType := "person_whitelist" |} ];
         BlackList := [ {| TokenID_1 := 10; TokenID_2 := 11; bl_JobID := 7;
                           bl_EntityType := "person_blacklist" |} ];
         InvalidSSN := []; Unmerge := [] |}.
Proof. by vm_compute. Qed.

End consume_facts.

(** ** IdentityClusterer *)

Section clusterer_facts.
Import Clusterer.

(** *** The fingerprint dictionary *)

Lemma tokens_of_fold (l : list (Z * string)) (d : gmap string (list Z)) t s :
  t ∈ tokens_of (foldl (λ d p, <[p.2 := tokens_of d p.2 ++ [p.1]]> d) d l) s
  ↔ t ∈ tokens_of d s ∨ (t, s) ∈ l.
Proof.
  revert d; induction l as [|[t0 s0] l IH]; intros d; simpl.
  - split; [by left | by intros [?|?%elem_of_nil]].
  - rewrite IH, elem_of_cons. unfold tokens_of at 1.
    destruct (decide (s0 = s)) as [->|Hne].
    + rewrite lookup_insert_eq. simpl. rewrite elem_of_app, list_elem_of_singleton.
      split; [intros [[?| ->]|?]; auto |].
      intros [?|[Heq|?]]; auto. injection Heq as ->. auto.
    + rewrite lookup_insert_ne by done. fold (tokens_of d s).
      split; [intros [?|?]; auto |].
      intros [?|[Heq|?]]; auto. injection Heq as -> ->. done.
Qed.

Lemma dom_fold (l : list (Z * string)) (d : gmap string (list Z)) s :
  s ∈ dom (foldl (λ d p, <[p.2 := tokens_of d p.2 ++ [p.1]]> d) d l)
  ↔ s ∈ dom d ∨ ∃ t, (t, s) ∈ l.
Proof.
  revert d; induction l as [|[t0 s0] l IH]; intros d; simpl.
  - split; [by left | intros [?|[t ?%elem_of_nil]]; done].
  - rewrite IH, dom_insert, elem_of_union, elem_of_singleton. split.
    + intros [[->|?]|[t ?]]; [right; exists t0; by left | by left |].
      right. exists t. by right.
    + intros [?|[t [Heq|?]%elem_of_cons]]; [by left; right | |].
      * injection Heq as -> ->. by left; left.
      * right. by exists t.
Qed.

Lemma smashid_to_tokenids_tokens token_smashids t s :
  t ∈ tokens_of (smashid_to_tokenids_of token_smashids) s ↔ (t, s) ∈ token_smashids.
Proof.
  unfold smashid_to_tokenids_of. rewrite tokens_of_fold.
  unfold tokens_of at 1. rewrite lookup_empty. simpl.
  split; [by intros [?%elem_of_nil|?] | by right].
Qed.

Lemma smashid_to_tokenids_dom token_smashids s :
  s ∈ dom (smashid_to_tokenids_of token_smashids) ↔ ∃ t, (t, s) ∈ token_smashids.
Proof.
  unfold smashid_to_tokenids_of. rewrite dom_fold, dom_empty.
  split; [by intros [?%elem_of_empty|?] | by right].
Qed.

(** *** Assigning and absorbing *)

Lemma assign_lookup_in tokens gid (r : gmap Z Z) t :
  t ∈ tokens → assign tokens gid r !! t = Some gid.
Proof.
  unfold assign. revert r.
  induction tokens as [|x tokens IH] using rev_ind; intros r;
    [by intros ?%elem_of_nil |].
  rewrite foldl_app. simpl. intros [Hin| ->%list_elem_of_singleton]%elem_of_app.
  - destruct (decide (x = t)) as [->|Hne]; [by rewrite lookup_insert_eq |].
    rewrite lookup_insert_ne by done. by apply IH.
  - by rewrite lookup_insert_eq.
Qed.

Lemma assign_lookup_notin tokens gid (r : gmap Z Z) t :
  t ∉ tokens → assign tokens gid r !! t = r !! t.
Proof.
  unfold assign. revert r.
  induction tokens as [|x tokens IH]; intros r Hnot; [done |]. simpl.
  rewrite IH by (intros ?; apply Hnot; by right).
  apply lookup_insert_ne. intros ->. apply Hnot. by left.
Qed.

Lemma assign_lookup tokens gid (r : gmap Z Z) t g :
  assign tokens gid r !! t = Some g → (t ∈ tokens ∧ g = gid) ∨ r !! t = Some g.
Proof.
  destruct (decide (t ∈ tokens)) as [Hin|Hnot].
  - rewrite assign_lookup_in by done. intros [= <-]. by left.
  - rewrite assign_lookup_notin by done. by right.
Qed.

Lemma absorb_all_unassigned d gid smashids (w : Work) s :
  s ∈ (absorb_all d gid smashids w).2 ↔ s ∈ w.2 ∧ s ∉ smashids.
Proof.
  unfold absorb_all. revert w; induction smashids as [|x l IH]; intros w; simpl.
  - split; [intros ?; split; [done | by intros ?%elem_of_nil] | by intros [? _]].
  - rewrite IH. simpl. rewrite elem_of_difference, elem_of_singleton, elem_of_cons.
    tauto.
Qed.

Lemma absorb_all_assigned d gid smashids (w : Work) s t :
  s ∈ smashids → t ∈ tokens_of d s →
  (absorb_all d gid smashids w).1 !! t = Some gid.
Proof.
  unfold absorb_all. revert w.
  induction smashids as [|x l IH] using rev_ind; intros w;
    [by intros ?%elem_of_nil |].
  rewrite foldl_app. simpl. intros [Hin| ->%list_elem_of_singleton]%elem_of_app Ht.
  - destruct (decide (t ∈ tokens_of d x)) as [Hx|Hx].
    + by apply assign_lookup_in.
    + rewrite assign_lookup_notin by done. by apply IH.
  - by apply assign_lookup_in.
Qed.

Lemma absorb_all_lookup d gid smashids (w : Work) t g :
  (absorb_all d gid smashids w).1 !! t = Some g →
  (g = gid ∧ ∃ s, s ∈ smashids ∧ t ∈ tokens_of d s) ∨ w.1 !! t = Some g.
Proof.
  unfold absorb_all. revert w; induction smashids as [|x l IH]; intros w; simpl;
    [by right |].
  intros [(-> & s & Hs & Ht)|Hw]%IH.
  - left. split; [done |]. exists s. split; [by right | done].
  - simpl in Hw. apply assign_lookup in Hw as [[Ht ->]|Hw]; [| by right].
    left. split; [done |]. exists x. split; [by left | done].
Qed.

Lemma absorb_all_untouched d gid smashids (w : Work) t :
  (∀ s, s ∈ smashids → t ∉ tokens_of d s) →
  (absorb_all d gid smashids w).1 !! t = w.1 !! t.
Proof.
  unfold absorb_all. revert w; induction smashids as [|x l IH]; intros w Hnot;
    [done |]. simpl.
  rewrite IH by (intros s Hs; apply Hnot; by right). simpl.
  apply assign_lookup_notin, Hnot. by left.
Qed.

(** The loops of a round as sequences of absorptions. *)
Lemma foldl_if_absorb d gid (p : string → bool) (l : list string) (w : Work) :
  foldl (λ w smash, if p smash then absorb d gid smash w else w) w l
  = absorb_all d gid (List.filter p l) w.
Proof.
  unfold absorb_all. revert w; induction l as [|x l IH]; intros w; [done |].
  simpl. destruct (p x); simpl; apply IH.
Qed.

Lemma step3_absorbs d gid longest same_length w :
  step3 d gid longest same_length w
  = absorb_all d gid
      (List.filter (λ smash, String.eqb smash longest) (elements same_length)) w.
Proof. apply foldl_if_absorb. Qed.

Lemma absorb_all_app d gid l1 l2 (w : Work) :
  absorb_all d gid l2 (absorb_all d gid l1 w) = absorb_all d gid (l1 ++ l2) w.
Proof. unfold absorb_all. by rewrite foldl_app. Qed.

Lemma elem_of_List_filter {T} (p : T → bool) (l : list T) x :
  x ∈ List.filter p l ↔ x ∈ l ∧ p x = true.
Proof. rewrite !list_elem_of_In. apply filter_In. Qed.

Lemma step4_absorbs d gid longest length_to_smashids lengths w :
  step4 d gid longest length_to_smashids lengths w
  = absorb_all d gid (step4_absorbed longest length_to_smashids lengths) w.
Proof.
  unfold step4, step4_absorbed, absorb_all.
  revert w; induction lengths as [|len lengths IH]; intros w; [done |].
  simpl. rewrite foldl_app, <- IH. f_equal.
  destruct (len <? String.length longest)%nat; [| done].
  apply foldl_if_absorb.
Qed.

(** *** The buckets by length *)

Lemma bucket_fold (l : list string) (d : gmap nat (gset string)) n s :
  s ∈ bucket
        (foldl (λ d smash,
                  <[String.length smash
                    := bucket d (String.length smash) ∪ {[smash]}]> d) d l) n
  ↔ s ∈ bucket d n ∨ (s ∈ l ∧ String.length s = n).
Proof.
  revert d; induction l as [|x l IH]; intros d; simpl.
  - split; [by left | by intros [?|[?%elem_of_nil _]]].
  - rewrite IH, elem_of_cons. unfold bucket at 1.
    destruct (decide (String.length x = n)) as [<-|Hne].
    + rewrite lookup_insert_eq. simpl. rewrite elem_of_union, elem_of_singleton.
      split; [intros [[?| ->]|[? ?]]; auto | intros [?|[[->|?] ?]]; auto].
    + rewrite lookup_insert_ne by done. fold (bucket d n).
      split; [intros [?|[? ?]]; auto | intros [?|[[->|?] ?]]; auto; done].
Qed.

Lemma dom_bucket_fold (l : list string) (d : gmap nat (gset string)) n :
  n ∈ dom (foldl (λ d smash,
                    <[String.length smash
                      := bucket d (String.length smash) ∪ {[smash]}]> d) d l)
  ↔ n ∈ dom d ∨ ∃ s, s ∈ l ∧ String.length s = n.
Proof.
  revert d; induction l as [|x l IH]; intros d; simpl.
  - split; [by left | intros [?|(s & ?%elem_of_nil & _)]; done].
  - rewrite IH, dom_insert, elem_of_union, elem_of_singleton. split.
    + intros [[->|?]|(s & ? & ?)]; [right; exists x; split; [by left | done]
                                   | by left |].
      right. exists s. split; [by right | done].
    + intros [?|(s & [->|?]%elem_of_cons & Hn)]; [by left; right | by left; left |].
      right. by exists s.
Qed.

Lemma length_to_smashids_bucket (u : gset string) n s :
  s ∈ bucket (length_to_smashids_of u) n ↔ s ∈ u ∧ String.length s = n.
Proof.
  unfold length_to_smashids_of. rewrite bucket_fold, elem_of_elements.
  unfold bucket at 1. rewrite lookup_empty. simpl.
  split; [by intros [?%elem_of_empty|?] | by right].
Qed.

Lemma length_to_smashids_dom (u : gset string) n :
  n ∈ dom (length_to_smashids_of u) ↔ ∃ s, s ∈ u ∧ String.length s = n.
Proof.
  unfold length_to_smashids_of. rewrite dom_bucket_fold, dom_empty. split.
  - intros [?%elem_of_empty|(s & Hs%elem_of_elements & ?)]; [done |]. by exists s.
  - intros (s & Hs & ?). right. exists s. by rewrite elem_of_elements.
Qed.

Lemma lengths_of_elem (d : gmap nat (gset string)) n :
  n ∈ lengths_of d ↔ n ∈ dom d.
Proof.
  unfold lengths_of.
  by rewrite elem_of_reverse, merge_sort_Permutation, elem_of_elements.
Qed.

Lemma bucket_delete (d : gmap nat (gset string)) k n s :
  s ∈ bucket (delete k d) n ↔ s ∈ bucket d n ∧ n ≠ k.
Proof.
  unfold bucket. destruct (decide (k = n)) as [->|Hne].
  - rewrite lookup_delete_eq. simpl. split; [by intros ?%elem_of_empty | tauto].
  - rewrite lookup_delete_ne by done. split; [intros ?; split; [done | auto] | tauto].
Qed.

(** *** The primary of a round *)

Lemma before_length x best :
  if before x best then (String.length best ≤ String.length x)%nat
  else (String.length x ≤ String.length best)%nat.
Proof.
  unfold before.
  destruct (String.length best <? String.length x)%nat eqn:Hlt; simpl.
  - apply Nat.ltb_lt in Hlt. lia.
  - apply Nat.ltb_ge in Hlt.
    destruct (String.length x =? String.length best)%nat eqn:Heq; simpl; [| done].
    apply Nat.eqb_eq in Heq. destruct (String.ltb x best); lia.
Qed.

Lemma scan_spec (rest : list string) (best : string) :
  let r := foldl (λ best x, if before x best then x else best) best rest in
  (r = best ∨ r ∈ rest)
  ∧ (String.length best ≤ String.length r)%nat
  ∧ ∀ y, y ∈ rest → (String.length y ≤ String.length r)%nat.
Proof.
  revert best; induction rest as [|x rest IH]; intros best; simpl.
  - split; [by left |]. split; [done |]. by intros y ?%elem_of_nil.
  - pose proof (before_length x best) as Hb.
    destruct (IH (if before x best then x else best)) as (Hr & Hlen & Hall).
    destruct (before x best); (split; [| split]).
    + destruct Hr as [->|?]; right; [by left | by right].
    + lia.
    + intros y [->|Hy]%elem_of_cons; [done | by apply Hall].
    + destruct Hr as [->|?]; [by left | right; by right].
    + done.
    + intros y [->|Hy]%elem_of_cons; [lia | by apply Hall].
Qed.

Lemma first_sorted_Some smashids longest :
  first_sorted smashids = Some longest →
  longest ∈ smashids
  ∧ ∀ y, y ∈ smashids → (String.length y ≤ String.length longest)%nat.
Proof.
  destruct smashids as [|s rest]; [discriminate |]. simpl. intros [= <-].
  destruct (scan_spec rest s) as (Hr & Hlen & Hall). split.
  - destruct Hr as [->|?]; [by left | by right].
  - intros y [->|Hy]%elem_of_cons; [done | by apply Hall].
Qed.

Lemma first_sorted_None smashids : first_sorted smashids = None → smashids = [].
Proof. by destruct smashids. Qed.

(** *** A round is a sequence of absorptions *)

Lemma step4_absorbed_elem longest (length_to_smashids : gmap nat (gset string))
    lengths s :
  s ∈ step4_absorbed longest length_to_smashids lengths
  ↔ ∃ len, len ∈ lengths ∧ (len < String.length longest)%nat
           ∧ s ∈ bucket length_to_smashids len ∧ issubset s longest = true.
Proof.
  unfold step4_absorbed. rewrite list_elem_of_bind. split.
  - intros (len & Hs & Hlen). exists len.
    destruct (len <? String.length longest)%nat eqn:Hlt;
      [| by apply elem_of_nil in Hs].
    apply Nat.ltb_lt in Hlt.
    apply elem_of_List_filter in Hs as [Hs%elem_of_elements Hsub]. done.
  - intros (len & Hlen & Hlt & Hs & Hsub). exists len. split; [| done].
    apply Nat.ltb_lt in Hlt. rewrite Hlt.
    apply elem_of_List_filter. by rewrite elem_of_elements.
Qed.

Lemma round_absorbs d longest st :
  ∃ absorbed,
    result (round d longest st)
    = (absorb_all d (counter st) (longest :: absorbed)
         (result st, unassigned_smashids st)).1
    ∧ unassigned_smashids (round d longest st)
      = (absorb_all d (counter st) (longest :: absorbed)
           (result st, unassigned_smashids st)).2
    ∧ counter (round d longest st) = counter st + 2
    ∧ (∀ s, s ∈ absorbed → s ∈ unassigned_smashids st ∧ s ≠ longest)
    ∧ (∀ s, s ∈ unassigned_smashids st → s ≠ longest →
            (String.length s < String.length longest)%nat →
            issubset s longest = true → s ∈ absorbed).
Proof.
  unfold round.
  set (w0 := (result st, unassigned_smashids st)).
  set (gid := counter st).
  set (w1 := absorb d gid longest w0).
  set (l2s := length_to_smashids_of w1.2).
  assert (Hw1 : ∀ s, s ∈ w1.2 ↔ s ∈ unassigned_smashids st ∧ s ≠ longest).
  { intros s. unfold w1, absorb. simpl.
    by rewrite elem_of_difference, elem_of_singleton. }
  assert (Hbucket : ∀ n s, s ∈ bucket l2s n → s ∈ unassigned_smashids st ∧ s ≠ longest).
  { intros n s [Hs _]%length_to_smashids_bucket. by apply Hw1. }
  assert (Hlive : ∀ (l2s' : gmap nat (gset string)) s,
            (∀ n s, n ≠ String.length longest → s ∈ bucket l2s n → s ∈ bucket l2s' n) →
            s ∈ unassigned_smashids st → s ≠ longest →
            (String.length s < String.length longest)%nat →
            issubset s longest = true →
            s ∈ step4_absorbed longest l2s' (lengths_of l2s)).
  { intros l2s' s Hkeep Hs Hne Hlt Hsub.
    assert (Hs1 : s ∈ w1.2) by (by apply Hw1).
    apply step4_absorbed_elem. exists (String.length s).
    split; [| split; [done | split; [| done]]].
    - apply lengths_of_elem, length_to_smashids_dom. by exists s.
    - apply Hkeep; [lia |]. by apply length_to_smashids_bucket. }
  destruct (l2s !! String.length longest) as [same_length|] eqn:Hsame.
  - exists (List.filter (λ smash, String.eqb smash longest) (elements same_length)
            ++ step4_absorbed longest (delete (String.length longest) l2s)
                 (lengths_of l2s)).
    cbn [result unassigned_smashids counter].
    rewrite step4_absorbs, step3_absorbs, absorb_all_app.
    split; [done |]. split; [done |]. split; [done |]. split.
    + intros s [Hs|Hs]%elem_of_app.
      * apply elem_of_List_filter in Hs as [Hs%elem_of_elements _].
        apply (Hbucket (String.length longest)). unfold bucket. by rewrite Hsame.
      * apply step4_absorbed_elem in Hs as (len & _ & _ & Hs & _).
        apply bucket_delete in Hs as [Hs _]. by apply (Hbucket len).
    + intros s Hs Hne Hlt Hsub. apply elem_of_app. right.
      apply Hlive; try done.
      intros n s' Hn Hs'. by apply bucket_delete.
  - exists (step4_absorbed longest l2s (lengths_of l2s)).
    cbn [result unassigned_smashids counter].
    rewrite step4_absorbs.
    split; [done |]. split; [done |]. split; [done |]. split.
    + intros s Hs.
      apply step4_absorbed_elem in Hs as (len & _ & _ & Hs & _).
      by apply (Hbucket len).
    + intros s Hs Hne Hlt Hsub. by apply Hlive.
Qed.

(** *** The loop *)

Lemma absorb_all_is_Some d gid smashids (w : Work) t :
  is_Some (w.1 !! t) → is_Some ((absorb_all d gid smashids w).1 !! t).
Proof.
  unfold absorb_all. revert w; induction smashids as [|x l IH]; intros w Hw;
    [done |]. simpl. apply IH. simpl.
  destruct (decide (t ∈ tokens_of d x)) as [Hin|Hnot].
  - rewrite assign_lookup_in by done. by eexists.
  - by rewrite assign_lookup_notin.
Qed.

Lemma round_unassigned d longest st s :
  s ∈ unassigned_smashids (round d longest st) →
  s ∈ unassigned_smashids st ∧ s ≠ longest.
Proof.
  destruct (round_absorbs d longest st) as (L & _ & -> & _).
  intros [Hs Hnot]%absorb_all_unassigned. split; [done |].
  intros ->. apply Hnot. by left.
Qed.

Lemma round_size d longest st :
  longest ∈ unassigned_smashids st →
  (size (unassigned_smashids (round d longest st)) < size (unassigned_smashids st))%nat.
Proof.
  intros Hin. apply subset_size. split.
  - intros s Hs. by apply round_unassigned in Hs as [? _].
  - intros Hsub. apply Hsub in Hin. by apply round_unassigned in Hin as [_ ?].
Qed.

Lemma first_sorted_elements (u : gset string) longest :
  first_sorted (elements u) = Some longest →
  longest ∈ u ∧ ∀ y, y ∈ u → (String.length y ≤ String.length longest)%nat.
Proof.
  intros [Hin Hmax]%first_sorted_Some. split; [by apply elem_of_elements |].
  intros y Hy. by apply Hmax, elem_of_elements.
Qed.

(** The loop leaves through its condition: with as many rounds as there are
    unassigned fingerprints, none is left. *)
Lemma assign_loop_exits fuel d st :
  (size (unassigned_smashids st) ≤ fuel)%nat →
  unassigned_smashids (assign_loop fuel d st) = ∅.
Proof.
  revert st; induction fuel as [|fuel IH]; intros st Hsize; simpl.
  - apply leibniz_equiv, size_empty_inv. lia.
  - destruct (first_sorted (elements (unassigned_smashids st))) as [longest|] eqn:Hfs.
    + apply IH. apply first_sorted_elements in Hfs as [Hin _].
      pose proof (round_size d longest st Hin). lia.
    + apply first_sorted_None in Hfs.
      by apply leibniz_equiv, elements_empty_inv.
Qed.

Lemma assign_loop_ind (P : State → Prop) d :
  (∀ st longest, P st →
     first_sorted (elements (unassigned_smashids st)) = Some longest →
     P (round d longest st)) →
  ∀ fuel st, P st → P (assign_loop fuel d st).
Proof.
  intros Hstep fuel; induction fuel as [|fuel IH]; intros st Hst; simpl; [done |].
  destruct (first_sorted (elements (unassigned_smashids st))) as [longest|] eqn:Hfs;
    [| done].
  apply IH. by apply Hstep.
Qed.

Lemma covered_initial self token_smashids :
  covered token_smashids (initial self (smashid_to_tokenids_of token_smashids)).
Proof.
  split; simpl.
  - intros t s Hin. left. apply smashid_to_tokenids_dom. by exists t.
  - intros t [g Hg]. by rewrite lookup_empty in Hg.
Qed.

Lemma covered_round token_smashids longest st :
  covered token_smashids st →
  covered token_smashids (round (smashid_to_tokenids_of token_smashids) longest st).
Proof.
  intros [Hcov Hdom].
  destruct (round_absorbs (smashid_to_tokenids_of token_smashids) longest st)
    as (L & Hres & Hun & _).
  split.
  - intros t s Hin. rewrite Hres, Hun.
    destruct (decide (s ∈ longest :: L)) as [HsL|HsL].
    + right. erewrite absorb_all_assigned; [by eexists | exact HsL |].
      by apply smashid_to_tokenids_tokens.
    + destruct (Hcov t s Hin) as [Hs|Hs].
      * left. by apply absorb_all_unassigned.
      * right. by apply absorb_all_is_Some.
  - intros t [g Hg]. rewrite Hres in Hg.
    apply absorb_all_lookup in Hg as [(_ & s & _ & Ht)|Hg].
    + exists s. by apply smashid_to_tokenids_tokens.
    + apply Hdom. by exists g.
Qed.

(** *** The labels *)

Lemma round_counter d longest st : counter (round d longest st) = counter st + 2.
Proof. by destruct (round_absorbs d longest st) as (L & _ & _ & -> & _). Qed.

Lemma allocations_labels fuel d st :
  (allocations fuel d st).*2
  = (λ i : nat, counter st + 2 * Z.of_nat i)
      <$> seq 0 (length (allocations fuel d st)).
Proof.
  revert st; induction fuel as [|fuel IH]; intros st; simpl; [done |].
  destruct (first_sorted (elements (unassigned_smashids st))) as [longest|];
    [| done].
  cbn [fmap list_fmap length seq]. f_equal; [simpl; lia |].
  fold (@fmap list _ _ _ (@snd string Z)). rewrite IH, round_counter.
  rewrite <- fmap_S_seq, <- list_fmap_compose.
  apply list_fmap_ext. intros _ i _. simpl. lia.
Qed.

Lemma assign_loop_values fuel d st t g :
  result (assign_loop fuel d st) !! t = Some g →
  result st !! t = Some g ∨ g ∈ (allocations fuel d st).*2.
Proof.
  revert st; induction fuel as [|fuel IH]; intros st; simpl; [by left |].
  destruct (first_sorted (elements (unassigned_smashids st))) as [longest|];
    [| by left].
  intros [Hg|Hg]%IH.
  - destruct (round_absorbs d longest st) as (L & Hres & _).
    rewrite Hres in Hg. apply absorb_all_lookup in Hg as [(-> & _)|Hg].
    + right. rewrite fmap_cons. by left.
    + by left.
  - right. rewrite fmap_cons. by right.
Qed.

Lemma assign_loop_counter fuel d st :
  counter (assign_loop fuel d st)
  = counter st + 2 * Z.of_nat (length (allocations fuel d st)).
Proof.
  revert st; induction fuel as [|fuel IH]; intros st; simpl; [lia |].
  destruct (first_sorted (elements (unassigned_smashids st))) as [longest|];
    [| simpl; lia].
  rewrite IH, round_counter. simpl. lia.
Qed.

(** *** The output of a call *)

Lemma assign_group_ids_dom self token_smashids t :
  t ∈ token_smashids.*1 ↔ is_Some ((assign_group_ids self token_smashids).2 !! t).
Proof.
  unfold assign_group_ids. cbn [snd].
  set (d := smashid_to_tokenids_of token_smashids).
  assert (Hcov : covered token_smashids
                   (assign_loop (rounds_needed d) d (initial self d))).
  { apply assign_loop_ind; [| apply covered_initial].
    intros st longest Hst _. by apply covered_round. }
  destruct Hcov as [Hcov Hdom]. split.
  - intros ([t' s] & -> & Hin)%list_elem_of_fmap. simpl.
    destruct (Hcov t' s Hin) as [Hs|Hs]; [| done].
    rewrite assign_loop_exits in Hs by done. by apply elem_of_empty in Hs.
  - intros [s Hs]%Hdom. apply list_elem_of_fmap. by exists (t, s).
Qed.

(** The example of the specification: Tokens 1, 2 and 3 share GroupID 1,
    Token 4 has GroupID 3, and the groups are discovered in that order. *)
Example clusterer_example :
  let input := [(1, "ABC"); (2, "ABC"); (3, "AB"); (4, "XYZ")]%string in
  (assign_group_ids init input).2 = {[ 1 := 1; 2 := 1; 3 := 1; 4 := 3 ]}
  ∧ allocated init input = [("ABC", 1); ("XYZ", 3)]%string
  ∧ group_id_counter (assign_group_ids init input).1 = 5.
Proof. by vm_compute. Qed.

(** C5: for every input sequence of (TokenID, fingerprint) pairs, the dict
    that the clusterer returns has a GroupID for every TokenID of the input
    and for no other (a dict gives each key one value, so the groups partition
    the Tokens presented); every GroupID in it is one of the labels allocated
    by the rounds; the labels allocated by a fresh assigner are, in discovery
    order, 1, 3, 5, ...: the i-th round (counting from 0) allocates 2i + 1;
    and the loop ends with no fingerprint unassigned. *)
Theorem clusterer_partition_and_labels (token_smashids : list (Z * string)) :
  let out := (assign_group_ids init token_smashids).2 in
  let labels := (allocated init token_smashids).*2 in
  let d := smashid_to_tokenids_of token_smashids in
  (∀ t, t ∈ token_smashids.*1 ↔ is_Some (out !! t))
  ∧ (∀ t g, out !! t = Some g → g ∈ labels)
  ∧ labels = (λ i : nat, 2 * Z.of_nat i + 1) <$> seq 0 (length labels)
  ∧ group_id_counter (assign_group_ids init token_smashids).1
    = 2 * Z.of_nat (length labels) + 1
  ∧ unassigned_smashids (assign_loop (rounds_needed d) d (initial init d)) = ∅.
Proof.
  intros out labels d.
  split; [apply assign_group_ids_dom |]. split; [| split; [| split]].
  - intros t g Hg. unfold out, assign_group_ids in Hg. cbn [snd] in Hg.
    apply assign_loop_values in Hg as [Hg|Hg]; [| done].
    simpl in Hg. by rewrite lookup_empty in Hg.
  - unfold labels at 1, allocated. rewrite allocations_labels.
    unfold labels, allocated. rewrite length_fmap.
    apply list_fmap_ext. intros _ i _. simpl. lia.
  - unfold assign_group_ids. cbn [fst group_id_counter].
    rewrite assign_loop_counter. unfold labels, allocated.
    rewrite length_fmap. simpl. lia.
  - by apply assign_loop_exits.
Qed.

(** *** The empty fingerprint *)

Lemma allocations_primaries fuel d st (s0 : string) :
  s0 ∉ unassigned_smashids st →
  ∀ p g, (p, g) ∈ allocations fuel d st → p ≠ s0.
Proof.
  revert st; induction fuel as [|fuel IH]; intros st Hnot p g; simpl;
    [by intros ?%elem_of_nil |].
  destruct (first_sorted (elements (unassigned_smashids st))) as [longest|] eqn:Hfs;
    [| by intros ?%elem_of_nil].
  intros [Heq|Hin]%elem_of_cons.
  - injection Heq as -> ->. apply first_sorted_elements in Hfs as [Hin _].
    by intros ->.
  - revert Hin. apply IH. by intros [? _]%round_unassigned.
Qed.

Lemma round_keeps_settled token_smashids (s0 : string) t g longest st :
  (∀ s, (t, s) ∈ token_smashids → s = s0) →
  first_sorted (elements (unassigned_smashids st)) = Some longest →
  (s0 ∉ unassigned_smashids st) ∧ result st !! t = Some g →
  (s0 ∉ unassigned_smashids (round (smashid_to_tokenids_of token_smashids) longest st))
  ∧ result (round (smashid_to_tokenids_of token_smashids) longest st) !! t = Some g.
Proof.
  intros Honly Hfs [Hnot Hres]. split; [by intros [? _]%round_unassigned |].
  destruct (round_absorbs (smashid_to_tokenids_of token_smashids) longest st)
    as (L & -> & _ & _ & HL & _).
  rewrite absorb_all_untouched; [done |].
  intros s Hs Ht%smashid_to_tokenids_tokens. apply Honly in Ht as ->.
  apply elem_of_cons in Hs as [->|Hs].
  - apply first_sorted_elements in Hfs as [Hin _]. done.
  - by apply HL in Hs as [? _].
Qed.

Lemma NoDup_fst_functional {A B} (l : list (A * B)) x y1 y2 :
  NoDup l.*1 → (x, y1) ∈ l → (x, y2) ∈ l → y1 = y2.
Proof.
  induction l as [|[a b] l IH]; [by intros _ ?%elem_of_nil |].
  rewrite fmap_cons. intros [Hnot Hnd]%NoDup_cons.
  intros [Heq1|H1]%elem_of_cons [Heq2|H2]%elem_of_cons.
  - congruence.
  - injection Heq1 as -> ->. exfalso. apply Hnot.
    apply list_elem_of_fmap. by exists (a, y2).
  - injection Heq2 as -> ->. exfalso. apply Hnot.
    apply list_elem_of_fmap. by exists (a, y1).
  - by apply IH.
Qed.

Lemma token_smash_pairs_elem token_smash_final t s :
  (t, s) ∈ token_smash_pairs token_smash_final →
  ∃ smash, (t, smash) ∈ token_smash_final ∧ smash ≠ EmptyString.
Proof.
  unfold token_smash_pairs.
  intros ([tid smash] & Hin & Hfinal)%list_elem_of_bind. simpl in Hin.
  case_decide as Hempty; [by apply elem_of_nil in Hin |].
  apply list_elem_of_fmap in Hin as (piece & [= -> _] & _). by exists smash.
Qed.

(** C6, as stated, fails in two ways.  In the worksheet wrapper the empty
    fingerprints are skipped before the clusterer is called, so Token 1 ends
    without any GroupID; and in the clusterer itself a Token that carries the
    empty fingerprint next to another one is assigned again by the round of
    that other fingerprint and ends in group 3, not in the first group. *)
Lemma empty_fingerprint_not_in_first_group :
  (process_worksheet_group_ids [(1, ""); (2, "ABC")]%string !! 1 = None
   ∧ process_worksheet_group_ids [(1, ""); (2, "ABC")]%string !! 2 = Some 1)
  ∧ (allocated init [(1, ""); (1, "XYZ"); (2, "ABCD")]%string
     = [("ABCD", 1); ("XYZ", 3)]%string
     ∧ (assign_group_ids init [(1, ""); (1, "XYZ"); (2, "ABCD")]%string).2 !! 1
       = Some 3).
Proof. by vm_compute. Qed.

(** C6 (amended): in a direct call of the clusterer (fresh counter), for every
    input in which some Token carries the empty fingerprint AND NO OTHER, and
    at least one non-empty fingerprint is present, that Token is assigned
    GroupID 1, the label of the first group formed, whose primary is a
    longest fingerprint of the input and is not empty; the empty fingerprint
    is the primary of no group, and the Token is not left unassigned.  In the
    worksheet wrapper the empty fingerprints are skipped before clustering, so
    there a Token whose fingerprint is empty gets no GroupID. *)
Theorem empty_fingerprint_joins_first_group
    (token_smashids : list (Z * string)) (t : Z) :
  (t, EmptyString) ∈ token_smashids →
  (∀ s, (t, s) ∈ token_smashids → s = EmptyString) →
  (∃ t' s', (t', s') ∈ token_smashids ∧ s' ≠ EmptyString) →
  (∃ primary later,
     allocated init token_smashids = (primary, 1) :: later
     ∧ primary ≠ EmptyString
     ∧ (∀ t' s', (t', s') ∈ token_smashids →
                 (String.length s' ≤ String.length primary)%nat)
     ∧ (∀ p g, (p, g) ∈ allocated init token_smashids → p ≠ EmptyString))
  ∧ (assign_group_ids init token_smashids).2 !! t = Some 1
  ∧ (∀ token_smash_final : list (Z * string),
       NoDup token_smash_final.*1 →
       (t, EmptyString) ∈ token_smash_final →
       process_worksheet_group_ids token_smash_final !! t = None).
Proof.
  intros Hempty Honly (t' & s' & Hs' & Hnonempty).
  unfold allocated, assign_group_ids. cbn [snd].
  set (d := smashid_to_tokenids_of token_smashids).
  assert (Hdom : ∀ t s, (t, s) ∈ token_smashids → s ∈ dom d).
  { intros t0 s0 Hin. apply smashid_to_tokenids_dom. by exists t0. }
  assert (Hfuel : ∃ fuel, rounds_needed d = S fuel).
  { unfold rounds_needed. destruct (size (dom d)) as [|n] eqn:Hsize; [| by exists n].
    apply size_empty_inv in Hsize. apply (Hdom _ _) in Hs'.
    by apply Hsize in Hs'. }
  destruct Hfuel as [fuel ->]. simpl.
  destruct (first_sorted (elements (dom d))) as [primary|] eqn:Hfs.
  2: { apply first_sorted_None, elements_empty_inv in Hfs.
       apply (Hdom _ _) in Hs'. by apply Hfs in Hs'. }
  pose proof (first_sorted_elements _ _ Hfs) as [Hprimary Hmax].
  assert (Hlen : (0 < String.length primary)%nat).
  { pose proof (Hmax s' (Hdom _ _ Hs')) as Hle.
    destruct s' as [|c s']; [done |]. simpl in Hle. lia. }
  assert (Hne : primary ≠ EmptyString) by (intros ->; simpl in Hlen; lia).
  set (st1 := round d primary (initial init d)).
  assert (Hst1 : (EmptyString ∉ unassigned_smashids st1)
                 ∧ result st1 !! t = Some 1).
  { destruct (round_absorbs d primary (initial init d))
      as (L & Hres & Hun & _ & _ & Hlive).
    assert (HinL : EmptyString ∈ primary :: L).
    { right. apply Hlive; [by apply (Hdom t) | done | done | done]. }
    fold st1 in Hres, Hun. split.
    - rewrite Hun. intros [_ Hnot]%absorb_all_unassigned. done.
    - rewrite Hres. apply (absorb_all_assigned _ _ _ _ EmptyString); [done |].
      by apply smashid_to_tokenids_tokens. }
  split; [| split].
  - exists primary, (allocations fuel d st1).
    split; [done |]. split; [done |]. split.
    + intros t0 s0 Hin. by apply Hmax, (Hdom t0).
    + intros p g [Heq|Hin]%elem_of_cons.
      * by injection Heq as -> _.
      * revert Hin. apply allocations_primaries. by destruct Hst1.
  - apply (assign_loop_ind
             (λ st, (EmptyString ∉ unassigned_smashids st)
                    ∧ result st !! t = Some 1)); [| done].
    intros st longest Hst Hlongest.
    by apply (round_keeps_settled token_smashids EmptyString).
  - intros token_smash_final Hnodup Hfinal.
    apply eq_None_not_Some. unfold process_worksheet_group_ids.
    intros Hin%assign_group_ids_dom%list_elem_of_fmap.
    destruct Hin as ([t0 s0] & -> & Hin). simpl in *.
    apply token_smash_pairs_elem in Hin as (smash & Hin & Hsmash).
    apply Hsmash. by apply (NoDup_fst_functional token_smash_final t0).
Qed.

Lemma empty_fingerprint_joins_first_group_witness :
  (assign_group_ids init [(1, "ABC"); (2, ""); (3, "AB")]%string).2 !! 2 = Some 1.
Proof.
  assert (H1 : (2, EmptyString) ∈ [(1, "ABC"); (2, ""); (3, "AB")]%string)
    by (right; left).
  assert (H2 : ∀ s, (2, s) ∈ [(1, "ABC"); (2, ""); (3, "AB")]%string
                    → s = EmptyString).
  { intros s Hs. apply list_elem_of_In in Hs. simpl in Hs.
    destruct Hs as [Hs|[Hs|[Hs|[]]]]; congruence. }
  assert (H3 : ∃ t' s', (t', s') ∈ [(1, "ABC"); (2, ""); (3, "AB")]%string
                        ∧ s' ≠ EmptyString).
  { exists 1, "ABC"%string. split; [left | discriminate]. }
  exact (proj1 (proj2 (empty_fingerprint_joins_first_group
                         [(1, "ABC"); (2, ""); (3, "AB")]%string 2 H1 H2 H3))).
Defined.

End clusterer_facts.

(** * Part III: further properties of the embedded code *)

(** ** TemporalBitmapCodec, continued *)

Section codec_more.
Import Codec.

Lemma chars_String c s : chars (String c s) = String c EmptyString :: chars s.
Proof. reflexivity. Qed.

(** X1: Decoding never fails and never looks at anything but the present marker:
    the result has one element per character of the string, each 0 or 1. *)
Theorem decode_bits_and_length (enrollment_string enrolled_char : string) :
  is_bits (convert_string_to_bitarray enrollment_string enrolled_char)
  ∧ length (convert_string_to_bitarray enrollment_string enrolled_char)
    = String.length enrollment_string.
Proof.
  unfold convert_string_to_bitarray, is_bits.
  induction enrollment_string as [|c s [IHb IHl]]; [by split; [constructor |] |].
  rewrite chars_String, fmap_cons. split.
  - constructor; [| done].
    destruct (String.eqb (String c EmptyString) enrolled_char); auto.
  - simpl. by f_equal.
Qed.

(** X2: Encoding reads every integer other than 1 as absent, so on arbitrary
    integers decoding gives the sequence with every element replaced by
    its bit. *)
Theorem decode_encode_any_integers (seq : list Z) (p a : string) :
  is_char p → is_char a → p ≠ a →
  convert_string_to_bitarray (convert_bitarray_to_string seq p a) p
  = as_bit <$> seq.
Proof.
  intros [cp ->]%is_char_inv [ca ->]%is_char_inv Hne.
  unfold convert_string_to_bitarray, convert_bitarray_to_string.
  induction seq as [|b seq IH]; [done |].
  rewrite !fmap_cons, join_cons. unfold as_bit at 1.
  destruct (b =? 1); rewrite append_char, chars_String, fmap_cons; f_equal;
    try exact IH.
  - by rewrite String.eqb_refl.
  - destruct (String.eqb_spec (String ca EmptyString) (String cp EmptyString));
      congruence.
Qed.

Lemma decode_encode_any_integers_witness :
  convert_string_to_bitarray (convert_bitarray_to_string [1; 7; 0; -1] "#" "_") "#"
  = [1; 0; 0; 0].
Proof.
  exact (decode_encode_any_integers [1; 7; 0; -1] "#" "_" eq_refl eq_refl
           ltac:(discriminate)).
Defined.

(** X3: The other round trip: a string written with the two markers only is
    given back by decoding and encoding again. *)
Theorem encode_decode (s p a : string) :
  is_char p → is_char a →
  Forall (λ c, c = p ∨ c = a) (chars s) →
  convert_bitarray_to_string (convert_string_to_bitarray s p) p a = s.
Proof.
  intros [cp ->]%is_char_inv [ca ->]%is_char_inv.
  unfold convert_string_to_bitarray, convert_bitarray_to_string.
  induction s as [|c s IH]; [done |].
  rewrite chars_String, Forall_cons, !fmap_cons, join_cons.
  intros [Hc Hs]. rewrite (IH Hs).
  destruct (String.eqb_spec (String c EmptyString) (String cp EmptyString))
    as [Heq|Hne]; simpl.
  - by injection Heq as ->.
  - destruct Hc as [Hc|Hc]; [done |]. by injection Hc as ->.
Qed.

Lemma encode_decode_witness :
  convert_bitarray_to_string (convert_string_to_bitarray "#__#" "#") "#" "_"
  = "#__#"%string.
Proof.
  apply (encode_decode "#__#" "#" "_" eq_refl eq_refl).
  repeat (constructor; [by (left + right) |]). constructor.
Defined.

End codec_more.

(** ** EnrollmentAggregator, continued *)

Section k12_more.
Import K12.

Lemma date_leb_le (a b : date) :
  date_leb a b = true
  ↔ year a < year b
    ∨ (year a = year b
       ∧ (month a < month b ∨ (month a = month b ∧ day a ≤ day b))).
Proof. unfold date_leb. destruct a, b; simpl. lia. Qed.

Lemma compute_enrollment_bitarray_bits school_year periods :
  compute_enrollment_bitarray school_year periods
  = month_bit periods <$> months school_year.
Proof. reflexivity. Qed.



Lemma months_after_default_end school_year m :
  m ∈ months school_year →
  date_leb m (mkdate (school_year - 1) 9 1) = false.
Proof.
  intros Hm. apply not_true_iff_false. rewrite date_leb_le.
  unfold months in Hm. apply list_elem_of_In in Hm. simpl in Hm.
  repeat (destruct Hm as [<-|Hm]; [simpl; lia |]). done.
Qed.

(** X6: The default for a null end date, September 1 of the previous year, lies
    before the first sampled date (September 15 of that year): a period whose
    end date was defaulted marks no month, whatever its begin date. *)
Theorem defaulted_end_marks_no_month school_year periods :
  Forall (λ p, p.2 = Some (mkdate (school_year - 1) 9 1)) periods →
  compute_enrollment_bitarray school_year periods = replicate 12 0.
Proof.
  intros Hall.
  assert (Hbit : ∀ m, m ∈ months school_year → month_bit periods m = 0).
  { intros m Hm. unfold month_bit.
    replace (existsb _ periods) with false; [done |]. symmetry.
    apply not_true_iff_false. rewrite existsb_exists.
    intros (p & Hp%list_elem_of_In & Hcover).
    rewrite Forall_forall in Hall. rewrite (Hall p Hp) in Hcover.
    simpl in Hcover. rewrite (months_after_default_end _ _ Hm) in Hcover.
    by rewrite andb_false_r in Hcover. }
  rewrite compute_enrollment_bitarray_bits.
  apply list_eq_same_length with 12%nat; [done | done |].
  intros i x y _ Hx Hy.
  apply list_lookup_fmap_Some in Hx as (m & -> & Hm).
  apply lookup_replicate in Hy as [-> _].
  apply Hbit. by eapply list_elem_of_lookup_2.
Qed.

Lemma defaulted_end_marks_no_month_witness :
  let row := {| TokenID := 1; OrganizationYear := 2005;
                EnrollmentBeginDT := Some (mkdate 2004 9 1);
                EnrollmentEndDT := None |} in
  EndDT <$> preprocess_data [row] = [Some (mkdate (2005 - 1) 9 1)]
  ∧ compute_enrollment_bitarray 2005
      [(Some (mkdate 2004 9 1), Some (mkdate (2005 - 1) 9 1))]
    = replicate 12 0.
Proof.
  intros row. split; [reflexivity |].
  apply (defaulted_end_marks_no_month 2005).
  constructor; [reflexivity | constructor].
Defined.

End k12_more.

(** *** Trimming, in general *)

Section trim_more.
Import K12.

Lemma split_at_first {T} (p : T → bool) (l : list T) :
  Exists (λ x, p x = true) l →
  ∃ pre x rest, l = pre ++ x :: rest
                ∧ Forall (λ y, p y = false) pre ∧ p x = true.
Proof.
  induction l as [|y l IH]; [by intros ?%Exists_nil |].
  intros Hex. destruct (p y) eqn:Hy.
  - exists [], y, l. by repeat split.
  - apply Exists_cons in Hex as [Hex|Hex]; [congruence |].
    destruct (IH Hex) as (pre & x & rest & -> & Hpre & Hx).
    exists (y :: pre), x, rest. repeat split; [| done]. by constructor.
Qed.

(** The shape of a pivot that has an enrolled school year: a run of empty
    columns, then either one enrolled column or a first and a last enrolled
    column with anything between them, then a run of empty columns. *)
Lemma enrolled_shape {L} (k12_pivot : pivot_frame L) :
  ¬ Forall (λ c, no_enrollment c.2 = true) k12_pivot →
  ∃ pre body suf,
    k12_pivot = pre ++ body ++ suf
    ∧ Forall (λ c, no_enrollment c.2 = true) pre
    ∧ Forall (λ c, no_enrollment c.2 = true) suf
    ∧ ((∃ col, body = [col] ∧ no_enrollment col.2 = false)
       ∨ (∃ first_col mid last_col,
             body = first_col :: mid ++ [last_col]
             ∧ no_enrollment first_col.2 = false
             ∧ no_enrollment last_col.2 = false)).
Proof.
  intros Hnot.
  assert (Hex : Exists (λ c : L * list cell, negb (no_enrollment c.2) = true)
                  k12_pivot).
  { apply not_Forall_Exists in Hnot; [| apply _].
    eapply Exists_impl; [exact Hnot |]. intros c Hc. simpl in Hc.
    by destruct (no_enrollment c.2). }
  assert (Hzero : ∀ l : pivot_frame L,
            Forall (λ c, negb (no_enrollment c.2) = false) l →
            Forall (λ c, no_enrollment c.2 = true) l).
  { intros l Hl. eapply Forall_impl; [exact Hl |]. intros c Hc. simpl in Hc.
    by destruct (no_enrollment c.2). }
  destruct (split_at_first _ _ Hex) as (pre & f & rest & -> & Hpre & Hf).
  assert (Hex' : Exists (λ c : L * list cell, negb (no_enrollment c.2) = true)
                   (reverse (f :: rest))).
  { apply Exists_exists. exists f. split; [| done].
    apply elem_of_reverse. by left. }
  destruct (split_at_first _ _ Hex') as (rsuf & l & rmid & Hrev & Hsuf & Hl).
  assert (Hbody : f :: rest = reverse rmid ++ l :: reverse rsuf).
  { rewrite <- (reverse_involutive (f :: rest)), Hrev, reverse_app, reverse_cons.
    by rewrite <- app_assoc. }
  apply negb_true_iff in Hf, Hl.
  exists pre, (reverse rmid ++ [l]), (reverse rsuf).
  split; [| split; [by apply Hzero | split; [apply Hzero; by apply Forall_reverse |]]].
  - rewrite Hbody. by rewrite <- !app_assoc.
  - destruct (reverse rmid) as [|f' mid] eqn:Hmid.
    + left. by exists l.
    + right. exists f', mid, l. simpl in Hbody. injection Hbody as <- _.
      by repeat split.
Qed.

(** X7: Trimming is idempotent: what it returns is left unchanged by a second
    pass, and it is a run of consecutive columns of the pivot. *)
Theorem trim_idempotent {L} (k12_pivot : pivot_frame L) :
  trim_non_enrollment_years (trim_non_enrollment_years k12_pivot)
  = trim_non_enrollment_years k12_pivot
  ∧ ∃ dropped_before dropped_after,
      k12_pivot = dropped_before ++ trim_non_enrollment_years k12_pivot
                  ++ dropped_after
      ∧ Forall (λ c, no_enrollment c.2 = true) dropped_before
      ∧ Forall (λ c, no_enrollment c.2 = true) dropped_after.
Proof.
  destruct (decide (Forall (λ c, no_enrollment c.2 = true) k12_pivot))
    as [Hzero|Hnot].
  - rewrite !(trim_all_zero _ Hzero). split; [done |].
    exists [], []. by rewrite app_nil_r.
  - destruct (enrolled_shape _ Hnot)
      as (pre & body & suf & -> & Hpre & Hsuf & Hbody).
    assert (Htrim : trim_non_enrollment_years (pre ++ body ++ suf) = body
                    ∧ trim_non_enrollment_years body = body).
    { destruct Hbody as [(col & -> & Hcol)
                        |(f & mid & l & -> & Hf & Hl)].
      - split.
        + by apply (trim_enrolled pre suf [] col col).
        + pose proof (proj2 (trim_enrolled [] [] [] col col
                               (Forall_nil_2 _) (Forall_nil_2 _) Hcol Hcol)) as H.
          simpl in H. exact H.
      - split.
        + by apply (trim_enrolled pre suf mid f l).
        + pose proof (proj1 (trim_enrolled [] [] mid f l
                               (Forall_nil_2 _) (Forall_nil_2 _) Hf Hl)) as H.
          simpl in H. by rewrite app_nil_r in H. }
    destruct Htrim as [-> ->]. split; [done |]. by exists pre, suf.
Qed.

(** X8: One bitmap row per (Token, school year): the keys of the generated rows
    are distinct and are exactly the keys that occur in the frame. *)
Theorem one_bitmap_per_token_and_year (k12_df : list PreprocessedRow) :
  NoDup ((λ b, (b.1.1, b.1.2)) <$> generate_enrollment_bitarrays k12_df)
  ∧ (∀ k, k ∈ (λ b, (b.1.1, b.1.2)) <$> generate_enrollment_bitarrays k12_df
          ↔ k ∈ group_key <$> k12_df)
  ∧ Forall (λ b, length b.2 = 12%nat) (generate_enrollment_bitarrays k12_df).
Proof.
  unfold generate_enrollment_bitarrays, enrollment_groups.
  rewrite <- !list_fmap_compose.
  set (keys := merge_sort key_le (drop_duplicates id (group_key <$> k12_df))).
  assert (Hkeys : (λ b : Z * Z * list Z, (b.1.1, b.1.2))
                  ∘ (λ g : Z * Z * list (option date * option date),
                       (g.1.1, g.1.2, compute_enrollment_bitarray g.1.2 g.2))
                  ∘ (λ k : Z * Z,
                       (k, (λ r, (EnrollmentBeginDT (raw r), EndDT r))
                             <$> filter (λ r, group_key r = k) k12_df))
                  <$> keys = keys).
  { rewrite <- (list_fmap_id keys) at 2. apply list_fmap_ext.
    intros _ [t y] _. reflexivity. }
  rewrite Hkeys. split; [| split].
  - unfold keys. rewrite merge_sort_Permutation. apply drop_duplicates_id_NoDup.
  - intros k. unfold keys.
    by rewrite merge_sort_Permutation, drop_duplicates_id_elem.
  - apply Forall_fmap, Forall_forall. intros k _. reflexivity.
Qed.

End trim_more.

(** ** WageAggregator, continued *)

Section wage_more.
Import Wage.

Lemma drop_duplicates_from_fixed {A K} `{EqDecision K} (key : A → K) seen rows :
  NoDup (key <$> rows) → (∀ x, x ∈ rows → key x ∉ seen) →
  drop_duplicates_from key seen rows = rows.
Proof.
  revert seen; induction rows as [|r rows IH]; intros seen Hnd Hseen; [done |].
  rewrite fmap_cons in Hnd. apply NoDup_cons in Hnd as [Hr Hnd]. simpl.
  destruct (decide (key r ∈ seen)) as [Hin|_].
  { exfalso. revert Hin. apply Hseen. by left. }
  f_equal. apply IH; [done |]. intros x Hx [Heq|Hin]%elem_of_cons.
  - apply Hr. rewrite <- Heq. apply list_elem_of_fmap. by exists x.
  - revert Hin. apply Hseen. by right.
Qed.


Lemma normalize_clean r :
  WageAMT (normalize r) ≠ AMT_SENTINEL ∧ WageHR (normalize r) ≠ HR_SENTINEL.
Proof.
  unfold normalize, AMT_SENTINEL, HR_SENTINEL. simpl.
  split; [destruct (WageAMT r =? -999999) eqn:H | destruct (WageHR r =? -999900) eqn:H];
    lia.
Qed.

Lemma normalize_fixed r :
  WageAMT r ≠ AMT_SENTINEL → WageHR r ≠ HR_SENTINEL → normalize r = r.
Proof.
  intros Ha Hh. unfold normalize. destruct r as [t y c amt hr]. simpl in *.
  apply Z.eqb_neq in Ha, Hh. by rewrite Ha, Hh.
Qed.

(** X10: After the housekeeping no sentinel is left, no two rows agree on
    (Token, year, term code, amount, hours), and a second housekeeping
    changes nothing. *)
Theorem housekeep_normal_form (wage_df : list WageRow) :
  Forall (λ r, WageAMT r ≠ AMT_SENTINEL ∧ WageHR r ≠ HR_SENTINEL)
         (_housekeep wage_df)
  ∧ NoDup (dedup_key <$> _housekeep wage_df)
  ∧ _housekeep (_housekeep wage_df) = _housekeep wage_df.
Proof.
  assert (Hclean : Forall (λ r, WageAMT r ≠ AMT_SENTINEL ∧ WageHR r ≠ HR_SENTINEL)
                          (_housekeep wage_df)).
  { apply Forall_forall. intros r Hr%drop_duplicates_elem.
    apply list_elem_of_fmap in Hr as (r0 & -> & _). apply normalize_clean. }
  assert (Hnd : NoDup (dedup_key <$> _housekeep wage_df))
    by apply drop_duplicates_NoDup.
  split; [done |]. split; [done |].
  unfold _housekeep at 1.
  assert (Hfix : normalize <$> _housekeep wage_df = _housekeep wage_df).
  { rewrite <- (list_fmap_id (_housekeep wage_df)) at 2.
    apply list_fmap_ext. intros i r Hr.
    rewrite Forall_forall in Hclean.
    destruct (Hclean r) as [Ha Hh]; [by eapply list_elem_of_lookup_2 |].
    by apply normalize_fixed. }
  rewrite Hfix. apply drop_duplicates_from_fixed; [done |].
  by intros x _ ?%elem_of_nil.
Qed.




End wage_more.

(** ** ReviewConsumptionPipeline, continued *)

Section consume_more.
Import Consume.

Lemma length_string_of_list_ascii (l : list ascii) :
  String.length (string_of_list_ascii l) = length l.
Proof. induction l as [|c l IH]; [done |]. simpl. by f_equal. Qed.

Lemma List_filter_fixed {T} (p : T → bool) (l : list T) :
  Forall (λ x, p x = true) l → List.filter p l = l.
Proof.
  induction 1 as [|x l Hx _ IH]; [done |]. simpl. by rewrite Hx, IH.
Qed.

Lemma clean_ssn_Some (ssn : option string) (cleaned : string) :
  clean_ssn ssn = Some cleaned →
  cleaned = string_of_list_ascii
              (List.filter isdigit (list_ascii_of_string (str_of_cell ssn)))
  ∧ String.length cleaned = 9%nat
  ∧ Forall (λ c, isdigit c = true) (list_ascii_of_string cleaned).
Proof.
  unfold clean_ssn. case_decide as Hlen; [| discriminate].
  intros [= <-]. split; [done |]. split; [done |].
  rewrite list_ascii_of_string_of_list_ascii.
  apply Forall_forall. intros c Hc. by apply elem_of_List_filter in Hc as [_ ?].
Qed.

(** X12: What [clean_ssn] returns is nine characters, all digits, and is left
    unchanged by a second cleaning; a null cell is rejected. *)
Theorem clean_ssn_nine_digits (ssn : option string) (cleaned : string) :
  clean_ssn ssn = Some cleaned →
  String.length cleaned = 9%nat
  ∧ Forall (λ c, isdigit c = true) (list_ascii_of_string cleaned)
  ∧ clean_ssn (Some cleaned) = Some cleaned
  ∧ clean_ssn None = None.
Proof.
  intros (Heq & Hlen & Hdigits)%clean_ssn_Some.
  split; [done |]. split; [done |]. split; [| reflexivity].
  unfold clean_ssn, str_of_cell. simpl.
  rewrite (List_filter_fixed _ _ Hdigits), string_of_list_ascii_of_string.
  by rewrite decide_True.
Qed.

Lemma clean_ssn_nine_digits_witness :
  String.length "123456789" = 9%nat
  ∧ Forall (λ c, isdigit c = true) (list_ascii_of_string "123456789")
  ∧ clean_ssn (Some "123456789"%string) = Some "123456789"%string
  ∧ clean_ssn None = None.
Proof.
  exact (clean_ssn_nine_digits (Some "123-45-6789"%string) "123456789" eq_refl).
Defined.


(** X14: The do-not-merge pairs: no pair twice, and every pair joins the Token of
    the only code-1 row of an Identity with the Token of a code-2 row of the
    same Identity. *)
Theorem do_not_merge_pairs_provenance (df : list WorksheetRow) :
  NoDup (unique_pairs (do_not_merge_pairs df))
  ∧ ∀ t1 t2, (t1, t2) ∈ unique_pairs (do_not_merge_pairs df) →
      ∃ row1 row2,
        row1 ∈ df ∧ row2 ∈ df ∧ P20ID row2 = P20ID row1
        ∧ DoNotMerge row1 = Some 1 ∧ DoNotMerge row2 = Some 2
        ∧ TokenID row1 = t1 ∧ TokenID row2 = t2
        ∧ filter (λ r, DoNotMerge r = Some 1)
                 (filter (λ r, P20ID r = P20ID row1) df) = [row1].
Proof.
  split; [unfold unique_pairs; apply NoDup_elements |].
  intros t1 t2. unfold unique_pairs, do_not_merge_pairs.
  rewrite elem_of_elements, elem_of_list_to_set, list_elem_of_bind.
  intros (p20id & Hpair & _). unfold group_pairs in Hpair.
  destruct (filter (λ r, DoNotMerge r = Some 1) (filter (λ r, P20ID r = p20id) df))
    as [|row1 [|]] eqn:Hdnm1; try by apply elem_of_nil in Hpair.
  apply list_elem_of_fmap in Hpair as (row2 & [= -> ->] & Hrow2).
  apply list_elem_of_filter in Hrow2 as [Hcode2 [Hid2 Hin2]%list_elem_of_filter].
  assert (Hrow1 : row1 ∈ filter (λ r, DoNotMerge r = Some 1)
                          (filter (λ r, P20ID r = p20id) df))
    by (rewrite Hdnm1; left).
  apply list_elem_of_filter in Hrow1 as [Hcode1 [Hid1 Hin1]%list_elem_of_filter].
  exists row1, row2. rewrite Hid1. repeat split; try done; congruence.
Qed.

End consume_more.

(** *** The run as a whole *)

Section consume_run.
Import Consume.

Lemma filter_all {A} (P : A → Prop) `{∀ x, Decision (P x)} (l : list A) :
  Forall P l → filter P l = l.
Proof.
  induction 1 as [|x l Hx _ IH]; [done |].
  by rewrite filter_cons_True, IH.
Qed.

(** What the second transaction leaves in each table when it goes through. *)
Lemma phase2_tables self df db db' :
  phase2 self df db = Some db' →
  WhiteList db' = WhiteList db ++ (whitelist_obj self <$> whitelist_p20ids df)
  ∧ BlackList db'
    = BlackList (process_do_not_merge_pairs self df
                   {| WhiteList := []; InvalidSSN := []; Unmerge := [];
                      BlackList :=
                        filter (λ b, ¬ (TokenID_1 b ∈ whitelist_tokenids df
                                        ∨ TokenID_2 b ∈ whitelist_tokenids df))
                               (BlackList db) |})
  ∧ InvalidSSN db' = InvalidSSN (process_invalid_ssn self df db)
  ∧ Unmerge db' = Unmerge db ++ unmerge_objs self df
  ∧ Forall (λ o, um_TokenID o ∉ um_TokenID <$> Unmerge db) (unmerge_objs self df).
Proof.
  unfold phase2. destruct (process_whitelist self df db) as [db1|] eqn:H1;
    [| discriminate]. simpl.
  apply process_whitelist_Some in H1 as (Hw & Hb & Hi & Hu & _).
  unfold load_unmerge_records. case_decide as Hclash; [discriminate |].
  intros [= <-]. simpl in *. rewrite Hu in Hclash. rewrite Hw, Hb, Hi, Hu.
  repeat split; try done.
  apply Forall_forall. intros o Ho Hin. apply Hclash, Exists_exists.
  by exists o.
Qed.

(** X16: A run never removes a whitelist entry or an invalid-SSN entry: whether it
    commits or rolls back, the two tables it finds are the beginning of the
    tables it leaves; and a blacklist pair that is there at the end was there
    before or is a do-not-merge pair of this worksheet, stamped with this
    job. *)
Theorem consume_keeps_earlier_records (self : Consumer)
    (worksheet_df : list WorksheetRow) (db : Database) :
  WhiteList db `prefix_of` WhiteList (final_state (consume self worksheet_df db))
  ∧ InvalidSSN db
    `prefix_of` InvalidSSN (final_state (consume self worksheet_df db))
  ∧ ∀ b, b ∈ BlackList (final_state (consume self worksheet_df db)) →
         b ∈ BlackList db
         ∨ (bl_JobID b = job_id self
            ∧ bl_EntityType b = blacklist_identity (kind self)
            ∧ (TokenID_1 b, TokenID_2 b) ∈ do_not_merge_pairs worksheet_df).
Proof.
  unfold consume.
  destruct (phase2 self worksheet_df (truncate_tables self db)) as [db2|] eqn:H2;
    simpl.
  - apply phase2_tables in H2 as (Hw & Hb & Hi & _). simpl in *.
    rewrite Hw, Hb, Hi. split; [by apply prefix_app_r |].
    split; [by apply prefix_app_r |].
    intros b [Hold|Hnew]%elem_of_app.
    + left. by apply list_elem_of_filter in Hold as [_ ?].
    + right. apply list_elem_of_fmap in Hnew as ([t1 t2] & -> & Hp). simpl.
      repeat split. unfold unique_pairs in Hp.
      by rewrite elem_of_elements, elem_of_list_to_set in Hp.
  - repeat split; try done. intros b Hb. by left.
Qed.

(** X17: A run whose worksheet collides with the tables rolls back after the
    truncation has been committed: when a row without GroupID belongs to an
    Identity that is whitelisted already, or a row with a GroupID carries a
    Token that the unmerge table holds under the other entity kind, nothing of
    the worksheet is written and the unmerge rows of this kind are gone. *)
Theorem clash_rolls_back (self : Consumer) (worksheet_df : list WorksheetRow)
    (db : Database) (r : WorksheetRow) :
  r ∈ worksheet_df →
  (GroupID r = None ∧ P20ID r ∈ wl_P20ID <$> WhiteList db)
  ∨ (GroupID r ≠ None
     ∧ ∃ o, o ∈ Unmerge db ∧ um_TokenID o = TokenID r
            ∧ um_entity_type o ≠ unmerge_identity (kind self)) →
  consume self worksheet_df db = RolledBack (truncate_tables self db).
Proof.
  intros Hr Hclash. unfold consume.
  destruct (phase2 self worksheet_df (truncate_tables self db)) as [db2|] eqn:H2;
    [exfalso | done].
  destruct Hclash as [[Hnull Hwl]|(Hgroup & o & Ho & Htok & Hkind)].
  - apply phase2_Some in H2 as (_ & _ & Hfresh). rewrite Forall_forall in Hfresh.
    apply (Hfresh (P20ID r)); [| done].
    apply whitelist_p20ids_elem. by exists r.
  - apply phase2_tables in H2 as (_ & _ & _ & _ & Hfresh).
    rewrite Forall_forall in Hfresh.
    assert (Hk : TokenID r ∈ TokenID <$> drop_duplicates TokenID
                   (filter (λ r, GroupID r ≠ None) worksheet_df)).
    { apply drop_duplicates_keys, list_elem_of_fmap. exists r.
      split; [done |]. by apply list_elem_of_filter. }
    apply list_elem_of_fmap in Hk as (r' & Hk & Hr').
    apply (Hfresh {| um_TokenID := TokenID r';
                     um_GroupID := default ""%string (GroupID r');
                     um_JobID := job_id self; CreateDT := now self;
                     um_entity_type := unmerge_identity (kind self) |}).
    + unfold unmerge_objs. apply list_elem_of_fmap. by exists r'.
    + simpl. rewrite <- Hk, <- Htok. apply list_elem_of_fmap. exists o.
      split; [done |]. by apply truncate_tables_Unmerge.
Qed.

Lemma clash_rolls_back_witness :
  let self := {| kind := person; job_id := 8; now := 0 |} in
  let ws := [ {| P20ID := 1; TokenID := 10; GroupID := None;
                 DoNotMerge := None; InvalidSSN_flag := Some 1;
                 SSN := Some "123-45-6789"%string |} ] in
  let old_whitelist := {| wl_P20ID := 1; wl_JobID := 7;
                          wl_EntityType := "person_whitelist" |} in
  let old_unmerge := {| um_TokenID := 12; um_GroupID := "1"; um_JobID := 7;
                        CreateDT := 0; um_entity_type := "person_unmerge" |} in
  let db := {| WhiteList := [old_whitelist]; BlackList := []; InvalidSSN := [];
               Unmerge := [old_unmerge] |} in
  consume self ws db
  = RolledBack {| WhiteList := [old_whitelist]; BlackList := [];
                  InvalidSSN := []; Unmerge := [] |}.
Proof.
  intros self ws old_whitelist old_unmerge db.
  assert (H1 : {| P20ID := 1; TokenID := 10; GroupID := None;
                  DoNotMerge := None; InvalidSSN_flag := Some 1;
                  SSN := Some "123-45-6789"%string |} ∈ ws) by (by left).
  assert (H2 : (1 : Z) ∈ wl_P20ID <$> WhiteList db) by (by left).
  exact (clash_rolls_back self ws db _ H1 (or_introl (conj eq_refl H2))).
Defined.

(** X18: A run that commits keeps the Tokens of the unmerge table distinct, and
    the Tokens it holds for the run's kind are then the Tokens of the
    worksheet rows that have a GroupID, each once. *)
Theorem committed_unmerge_tokens (self : Consumer)
    (worksheet_df : list WorksheetRow) (db db' : Database) :
  NoDup (um_TokenID <$> Unmerge db) →
  consume self worksheet_df db = Committed db' →
  NoDup (um_TokenID <$> Unmerge db')
  ∧ ∀ t, t ∈ um_TokenID
             <$> filter (λ o, um_entity_type o = unmerge_identity (kind self))
                        (Unmerge db')
         ↔ ∃ r, r ∈ worksheet_df ∧ TokenID r = t ∧ GroupID r ≠ None.
Proof.
  intros Hnd. unfold consume.
  destruct (phase2 self worksheet_df (truncate_tables self db)) as [db2|] eqn:H2;
    [| discriminate].
  intros [= <-]. apply phase2_tables in H2 as (_ & _ & _ & Hu & Hfresh).
  rewrite Forall_forall in Hfresh.
  assert (Hobjs : um_TokenID <$> unmerge_objs self worksheet_df
                  = TokenID <$> drop_duplicates TokenID
                      (filter (λ r, GroupID r ≠ None) worksheet_df)).
  { unfold unmerge_objs. by rewrite <- list_fmap_compose. }
  split.
  - rewrite Hu, fmap_app. apply NoDup_app. split; [| split].
    + eapply sublist_NoDup; [exact Hnd |].
      apply fmap_sublist. simpl. apply sublist_filter.
    + intros t Ht (o & -> & Ho)%list_elem_of_fmap. by apply (Hfresh o).
    + rewrite Hobjs. apply drop_duplicates_NoDup.
  - intros t. rewrite Hu, filter_app, fmap_app, elem_of_app.
    rewrite (filter_none _ (Unmerge (truncate_tables self db))).
    2:{ apply Forall_forall. intros o Ho%truncate_tables_Unmerge. tauto. }
    assert (Hall : filter (λ o, um_entity_type o = unmerge_identity (kind self))
                          (unmerge_objs self worksheet_df)
                   = unmerge_objs self worksheet_df).
    { apply filter_all, Forall_forall. by intros o Ho%unmerge_objs_kind. }
    rewrite Hall, Hobjs, drop_duplicates_keys, fmap_nil, list_elem_of_fmap. split.
    + intros [?%elem_of_nil|(r & -> & [Hg Hr]%list_elem_of_filter)]; [done |].
      by exists r.
    + intros (r & Hr & <- & Hg). right. exists r. split; [done |].
      by apply list_elem_of_filter.
Qed.

Lemma committed_unmerge_tokens_witness :
  let self := {| kind := person; job_id := 8; now := 0 |} in
  let ws := [ {| P20ID := 1; TokenID := 10; GroupID := Some "1"%string;
                 DoNotMerge := None; InvalidSSN_flag := None; SSN := None |};
              {| P20ID := 1; TokenID := 10; GroupID := Some "3"%string;
                 DoNotMerge := None; InvalidSSN_flag := None; SSN := None |} ] in
  let other_kind := {| um_TokenID := 13; um_GroupID := "1"; um_JobID := 7;
                       CreateDT := 0; um_entity_type := "organization_unmerge" |} in
  let split_row := {| um_TokenID := 10; um_GroupID := "1"; um_JobID := 8;
                      CreateDT := 0; um_entity_type := "person_unmerge" |} in
  let db := {| WhiteList := []; BlackList := []; InvalidSSN := [];
               Unmerge := [other_kind] |} in
  let db' := {| WhiteList := []; BlackList := []; InvalidSSN := [];
                Unmerge := [other_kind; split_row] |} in
  NoDup (um_TokenID <$> Unmerge db').
Proof.
  intros self ws other_kind split_row db db'.
  assert (H1 : NoDup (um_TokenID <$> Unmerge db)).
  { apply NoDup_cons. split; [by intros ?%elem_of_nil | constructor]. }
  assert (H2 : consume self ws db = Committed db') by reflexivity.
  exact (proj1 (committed_unmerge_tokens self ws db db' H1 H2)).
Defined.

Lemma process_whitelist_clears_blacklist_witness :
  let self := {| kind := person; job_id := 8; now := 0 |} in
  let r := {| P20ID := 1; TokenID := 10; GroupID := None;
              DoNotMerge := None; InvalidSSN_flag := None; SSN := None |} in
  let kept := {| TokenID_1 := 20; TokenID_2 := 21; bl_JobID := 7;
                 bl_EntityType := "person_blacklist" |} in
  let cleared := {| TokenID_1 := 10; TokenID_2 := 21; bl_JobID := 7;
                    bl_EntityType := "person_blacklist" |} in
  let db := {| WhiteList := []; BlackList := [cleared; kept]; InvalidSSN := [];
               Unmerge := [] |} in
  let db' := {| WhiteList := [whitelist_obj self 1]; BlackList := [kept];
                InvalidSSN := []; Unmerge := [] |} in
  TokenID_1 kept ≠ TokenID r ∧ TokenID_2 kept ≠ TokenID r.
Proof.
  intros self r kept cleared db db'.
  assert (H1 : process_whitelist self [r] db = Some db') by reflexivity.
  assert (H2 : kept ∈ BlackList db') by (by left).
  assert (H3 : r ∈ [r]) by (by left).
  exact (process_whitelist_clears_blacklist self [r] db db' kept r H1 H2 H3 eq_refl).
Defined.

End consume_run.

(** ** NameCanonicalizer *)

Section smash_more.
Import Smash.

Lemma keep_unseen_elem seen cs c :
  c ∈ keep_unseen seen cs ↔ c ∈ cs ∧ isalpha_ascii c = true ∧ c ∉ seen.
Proof.
  revert seen; induction cs as [|x cs IH]; intros seen; simpl.
  - split; [by intros ?%elem_of_nil | by intros [?%elem_of_nil _]].
  - destruct (isalpha_ascii x) eqn:Hx; simpl.
    + case_bool_decide as Hseen; simpl.
      * rewrite IH, elem_of_cons. split; [tauto |].
        intros [[->|?] [? ?]]; [done | tauto].
      * rewrite !elem_of_cons, IH, elem_of_cons.
        destruct (decide (c = x)) as [->|Hne]; [tauto |]. tauto.
    + rewrite IH, elem_of_cons. split; [tauto |].
      intros [[->|?] [? ?]]; [congruence | tauto].
Qed.

Lemma keep_unseen_NoDup seen cs : NoDup (keep_unseen seen cs).
Proof.
  revert seen; induction cs as [|x cs IH]; intros seen; simpl; [constructor |].
  destruct (isalpha_ascii x && negb (bool_decide (x ∈ seen))); [| apply IH].
  constructor; [| apply IH].
  intros (_ & _ & Hseen)%keep_unseen_elem. apply Hseen. by left.
Qed.

Lemma keep_unseen_sublist seen cs : keep_unseen seen cs `sublist_of` cs.
Proof.
  revert seen; induction cs as [|x cs IH]; intros seen; simpl; [constructor |].
  destruct (isalpha_ascii x && negb (bool_decide (x ∈ seen))).
  - apply sublist_skip, IH.
  - apply sublist_cons, IH.
Qed.

Lemma keep_unseen_fixed seen cs :
  Forall (λ c, isalpha_ascii c = true) cs → NoDup cs →
  (∀ c, c ∈ cs → c ∉ seen) → keep_unseen seen cs = cs.
Proof.
  revert seen; induction cs as [|x cs IH]; intros seen Hal Hnd Hseen; [done |].
  apply Forall_cons in Hal as [Hx Hal]. apply NoDup_cons in Hnd as [Hnx Hnd].
  simpl. rewrite Hx, bool_decide_eq_false_2 by (apply Hseen; by left).
  simpl. f_equal. apply IH; [done | done |].
  intros c Hc [->|Hin]%elem_of_cons; [done |].
  revert Hin. apply Hseen. by right.
Qed.

Lemma upper_letter c :
  isalpha_ascii (upper c) = true →
  is_upper_letter (upper c) ∧ upper (upper c) = upper c.
Proof.
  destruct c as [[] [] [] [] [] [] [] []]; vm_compute; intros H;
    try discriminate H; (split; [lia | reflexivity]).
Qed.

Lemma upper_letter_isalpha c : is_upper_letter c → isalpha_ascii c = true.
Proof.
  unfold is_upper_letter, isalpha_ascii. intros [H1 H2].
  apply orb_true_iff. left. apply andb_true_iff.
  split; by apply Nat.leb_le.
Qed.

(** X24: The SmashID of an ASCII name is canonical: uppercase letters only, no
    letter twice (so at most 26 characters), in the order of the name; it has
    every letter of the name; and it is its own SmashID. *)
Theorem smash_id_canonical (name : string) :
  isascii name = true →
  let smash := list_ascii_of_string (create_smash_id name) in
  Forall is_upper_letter smash
  ∧ NoDup smash
  ∧ (length smash ≤ 26)%nat
  ∧ smash `sublist_of` (upper <$> list_ascii_of_string name)
  ∧ (∀ c, is_upper_letter c →
          c ∈ smash ↔ c ∈ upper <$> list_ascii_of_string name)
  ∧ create_smash_id (create_smash_id name) = create_smash_id name.
Proof.
  intros _. cbv zeta. unfold create_smash_id.
  rewrite !list_ascii_of_string_of_list_ascii.
  set (cs := upper <$> list_ascii_of_string name).
  set (smash := keep_unseen [] cs).
  assert (Hup : Forall (λ c, is_upper_letter c ∧ upper c = c) smash).
  { apply Forall_forall. intros c Hc. unfold smash in Hc.
    apply keep_unseen_elem in Hc as (Hc & Hal & _).
    apply list_elem_of_fmap in Hc as (c0 & -> & _). by apply upper_letter. }
  assert (Hnd : NoDup smash) by apply keep_unseen_NoDup.
  split; [by eapply Forall_impl; [exact Hup |]; intros c [? _] |].
  split; [done |]. split; [| split; [apply keep_unseen_sublist | split]].
  - assert (Hsub : smash ⊆+ ascii_of_nat <$> seq 65 26).
    { apply NoDup_submseteq; [done |]. intros c Hc.
      rewrite Forall_forall in Hup. destruct (Hup c Hc) as [[H1 H2] _].
      apply list_elem_of_fmap. exists (nat_of_ascii c).
      split; [by rewrite ascii_nat_embedding |]. apply elem_of_seq. lia. }
    apply submseteq_length in Hsub. by rewrite length_fmap, length_seq in Hsub.
  - intros c Hc. unfold smash. rewrite keep_unseen_elem.
    split; [tauto |]. intros Hin. split; [done |].
    split; [by apply upper_letter_isalpha | by intros ?%elem_of_nil].
  - f_equal.
    assert (Hfix : upper <$> smash = smash).
    { rewrite <- (list_fmap_id smash) at 2. apply list_fmap_ext.
      intros i c Hc%list_elem_of_lookup_2.
      rewrite Forall_forall in Hup. by destruct (Hup c Hc) as [_ ->]. }
    rewrite Hfix. apply keep_unseen_fixed; [| done |].
    + eapply Forall_impl; [exact Hup |]. intros c [Hc _].
      by apply upper_letter_isalpha.
    + by intros c _ ?%elem_of_nil.
Qed.

Lemma smash_id_canonical_witness :
  NoDup (list_ascii_of_string (create_smash_id "Jennifer Doolittle")).
Proof.
  exact (proj1 (proj2 (smash_id_canonical "Jennifer Doolittle" eq_refl))).
Defined.

End smash_more.

(** ** Column ordering *)

Section columns_more.
Import Columns.

Lemma required_columns_snoc column_order e :
  required_columns (column_order ++ [e])
  = required_columns column_order
    ++ (if decide (ColumnType e = 0) then [ColumnName e] else []).
Proof.
  unfold required_columns. rewrite filter_app, fmap_app. f_equal.
  rewrite filter_cons. by destruct (decide (ColumnType e = 0)).
Qed.

(** The invariant of the loop: the frame has its original columns and the
    required ones met so far; the columns picked are columns of the frame;
    the required ones met so far are picked. *)
Lemma column_loop_invariant worksheet_columns optional_column_lists column_order :
  let st := foldl (step optional_column_lists) (worksheet_columns, [])
                  column_order in
  (∀ c, c ∈ st.1 ↔ c ∈ worksheet_columns ∨ c ∈ required_columns column_order)
  ∧ (∀ c, c ∈ st.2 → c ∈ st.1)
  ∧ (∀ c, c ∈ required_columns column_order → c ∈ st.2).
Proof.
  induction column_order as [|e column_order IH] using rev_ind; simpl.
  - split; [| split]; intros c; rewrite ?elem_of_nil; tauto.
  - rewrite foldl_app, required_columns_snoc.
    cbv zeta in IH.
    destruct (foldl (step optional_column_lists) (worksheet_columns, [])
                    column_order) as [columns final_columns].
    simpl in IH. destruct IH as (Hcols & Hfinal & Hreq).
    simpl foldl. unfold step.
    destruct (decide (ColumnType e = 0)) as [H0|H0].
    { rewrite (proj2 (Z.eqb_eq _ _) H0). simpl.
      assert (Hcols' : ∀ c, c ∈ (if decide (ColumnName e ∈ columns) then columns
                                 else columns ++ [ColumnName e])
                            ↔ c ∈ columns ∨ c = ColumnName e).
      { intros c. case_decide as Hin.
        - split; [tauto |]. by intros [?| ->].
        - rewrite elem_of_app, list_elem_of_singleton. tauto. }
      split; [| split]; intros c;
        rewrite ?Hcols', ?elem_of_app, ?list_elem_of_singleton, ?Hcols.
      - tauto.
      - intros [?%Hfinal%Hcols|?]; tauto.
      - intros [?%Hreq|?]; tauto. }
    rewrite (proj2 (Z.eqb_neq _ _) H0), app_nil_r.
    assert (Hkeep : ∀ extra : list string,
              (∀ c, c ∈ extra → c ∈ columns) →
              (∀ c, c ∈ (columns, final_columns ++ extra).1
                    ↔ c ∈ worksheet_columns ∨ c ∈ required_columns column_order)
              ∧ (∀ c, c ∈ (columns, final_columns ++ extra).2
                      → c ∈ (columns, final_columns ++ extra).1)
              ∧ (∀ c, c ∈ required_columns column_order
                      → c ∈ (columns, final_columns ++ extra).2)).
    { intros extra Hextra. simpl. split; [done |]. split; intros c.
      - rewrite elem_of_app. intros [?|?]; auto.
      - rewrite elem_of_app. auto. }
    assert (Hsame : (∀ c, c ∈ (columns, final_columns).1
                          ↔ c ∈ worksheet_columns
                            ∨ c ∈ required_columns column_order)
                    ∧ (∀ c, c ∈ (columns, final_columns).2
                            → c ∈ (columns, final_columns).1)
                    ∧ (∀ c, c ∈ required_columns column_order
                            → c ∈ (columns, final_columns).2)) by done.
    destruct (ColumnType e =? 1).
    { case_decide as Hin; [| done]. apply Hkeep.
      by intros c ->%list_elem_of_singleton. }
    destruct (ColumnType e =? 2); [| done].
    destruct (filter (λ col, col ∈ columns)
                (default [] (optional_column_lists !! ColumnName e)))
      as [|a available] eqn:Hav; [done |].
    apply Hkeep. intros c Hc. rewrite <- Hav in Hc.
    by apply list_elem_of_filter in Hc as [? _].
Qed.

(** X27: [apply_column_order] never raises its error: a required column that the
    frame lacks is added before the check.  Every required column is in the
    result, and every column of the result is a column of the frame that was
    passed in or a required one. *)
Theorem apply_column_order_total (worksheet_columns : list string)
    (column_order : list entry)
    (optional_column_lists : gmap string (list string)) :
  ∃ final_columns,
    apply_column_order worksheet_columns column_order optional_column_lists
    = Some final_columns
    ∧ (∀ c, c ∈ required_columns column_order → c ∈ final_columns)
    ∧ (∀ c, c ∈ final_columns →
            c ∈ worksheet_columns ∨ c ∈ required_columns column_order).
Proof.
  destruct (column_loop_invariant worksheet_columns optional_column_lists
              column_order) as (Hcols & Hfinal & Hreq).
  unfold apply_column_order.
  set (st := foldl (step optional_column_lists) (worksheet_columns, [])
                   column_order) in *.
  rewrite (filter_none _ (required_columns column_order)).
  - exists st.2. split; [done |]. split; [done |].
    intros c Hc%Hfinal. by apply Hcols.
  - apply Forall_forall. intros c Hc Hmiss. apply Hmiss, Hcols. by right.
Qed.

End columns_more.

(** ** IdentityClusterer, continued *)

Section cluster_more.
Import Clusterer.

(** *** The sort key of step 1 is a strict total order *)

Lemma ascii_compare_refl a : Ascii.compare a a = Eq.
Proof. unfold Ascii.compare. apply N.compare_refl. Qed.

Lemma ascii_compare_lt_trans a b c :
  Ascii.compare a b = Lt → Ascii.compare b c = Lt → Ascii.compare a c = Lt.
Proof. unfold Ascii.compare. rewrite !N.compare_lt_iff. lia. Qed.

Lemma string_compare_lt_trans a b c :
  String.compare a b = Lt → String.compare b c = Lt → String.compare a c = Lt.
Proof.
  revert b c; induction a as [|x a IH]; intros [|y b] [|z c]; simpl; try done.
  destruct (Ascii.compare x y) eqn:Hxy; [| | done];
    (destruct (Ascii.compare y z) eqn:Hyz; [| | done]).
  - apply Ascii.compare_eq_iff in Hxy as ->.
    apply Ascii.compare_eq_iff in Hyz as ->.
    rewrite ascii_compare_refl. apply IH.
  - apply Ascii.compare_eq_iff in Hxy as ->. by rewrite Hyz.
  - apply Ascii.compare_eq_iff in Hyz as <-. by rewrite Hxy.
  - by rewrite (ascii_compare_lt_trans x y z).
Qed.

Lemma ltb_Lt a b : String.ltb a b = true ↔ String.compare a b = Lt.
Proof. unfold String.ltb. by destruct (String.compare a b). Qed.

Lemma before_spec a b :
  before a b = true
  ↔ (String.length b < String.length a)%nat
    ∨ (String.length a = String.length b ∧ String.compare a b = Lt).
Proof.
  unfold before.
  by rewrite orb_true_iff, andb_true_iff, Nat.ltb_lt, Nat.eqb_eq, ltb_Lt.
Qed.

Lemma before_trans a b c :
  before a b = true → before b c = true → before a c = true.
Proof.
  rewrite !before_spec. intros [Hab|[Hab Hlt1]] [Hbc|[Hbc Hlt2]];
    [left; lia | left; lia | left; lia |].
  right. split; [congruence |]. by apply (string_compare_lt_trans a b c).
Qed.

Lemma before_total a b : a ≠ b → before a b = true ∨ before b a = true.
Proof.
  intros Hne. rewrite !before_spec.
  destruct (lt_eq_lt_dec (String.length a) (String.length b)) as [[Hlt|Heq]|Hgt];
    [right; left; lia | | left; left; lia].
  destruct (String.compare a b) eqn:Hc.
  - by apply String.compare_eq_iff in Hc.
  - left. by right.
  - right. right. split; [done |]. by rewrite String.compare_antisym, Hc.
Qed.

Lemma before_irrefl a : before a a = false.
Proof.
  apply not_true_is_false. rewrite before_spec. intros [?|[_ Hlt]]; [lia |].
  pose proof (String.compare_antisym a a) as Hanti. rewrite Hlt in Hanti.
  discriminate.
Qed.

Lemma scan_min (rest : list string) (best : string) :
  let r := foldl (λ best x, if before x best then x else best) best rest in
  ∀ y, y = best ∨ y ∈ rest → y = r ∨ before r y = true.
Proof.
  revert best; induction rest as [|x rest IH]; intros best; simpl.
  - intros y [->|?%elem_of_nil]; [by left | done].
  - specialize (IH (if before x best then x else best)). simpl in IH.
    set (r := foldl (λ best x, if before x best then x else best)
                    (if before x best then x else best) rest) in *.
    intros y Hy.
    destruct (before x best) eqn:Hx.
    + destruct Hy as [->|[->|Hy]%elem_of_cons]; [| by apply IH; left | by apply IH; right].
      destruct (IH x (or_introl eq_refl)) as [<-|Hr]; [by right |].
      right. by apply (before_trans r x best).
    + destruct Hy as [->|[->|Hy]%elem_of_cons]; [by apply IH; left | | by apply IH; right].
      destruct (decide (x = best)) as [->|Hne]; [by apply IH; left |].
      destruct (before_total x best Hne) as [Hc|Hc]; [congruence |].
      destruct (IH best (or_introl eq_refl)) as [<-|Hr]; [by right |].
      right. by apply (before_trans r best x).
Qed.

Lemma first_sorted_min smashids longest :
  first_sorted smashids = Some longest →
  ∀ y, y ∈ smashids → y = longest ∨ before longest y = true.
Proof.
  destruct smashids as [|s rest]; [discriminate |]. simpl. intros [= <-] y Hy.
  apply scan_min. by apply elem_of_cons in Hy.
Qed.

(** *** A round, exactly *)

(** The fingerprints that a round gives its GroupID to, besides the primary:
    the waiting ones that are strictly shorter than the primary and whose
    characters all occur in it. *)
Lemma round_family d longest st :
  ∃ absorbed,
    result (round d longest st)
    = (absorb_all d (counter st) (longest :: absorbed)
         (result st, unassigned_smashids st)).1
    ∧ unassigned_smashids (round d longest st)
      = (absorb_all d (counter st) (longest :: absorbed)
           (result st, unassigned_smashids st)).2
    ∧ ∀ s, s ∈ absorbed
           ↔ s ∈ unassigned_smashids st ∧ s ≠ longest
             ∧ (String.length s < String.length longest)%nat
             ∧ issubset s longest = true.
Proof.
  unfold round.
  set (w0 := (result st, unassigned_smashids st)).
  set (gid := counter st).
  set (w1 := absorb d gid longest w0).
  set (l2s := length_to_smashids_of w1.2).
  assert (Hw1 : ∀ s, s ∈ w1.2 ↔ s ∈ unassigned_smashids st ∧ s ≠ longest).
  { intros s. unfold w1, absorb. simpl.
    by rewrite elem_of_difference, elem_of_singleton. }
  assert (Hstep4 : ∀ (l2s' : gmap nat (gset string)),
            (∀ n s, n ≠ String.length longest →
                    s ∈ bucket l2s' n ↔ s ∈ bucket l2s n) →
            ∀ s, s ∈ step4_absorbed longest l2s' (lengths_of l2s)
                 ↔ s ∈ unassigned_smashids st ∧ s ≠ longest
                   ∧ (String.length s < String.length longest)%nat
                   ∧ issubset s longest = true).
  { intros l2s' Hkeep s. rewrite step4_absorbed_elem. split.
    - intros (len & _ & Hlt & Hs & Hsub).
      apply Hkeep in Hs; [| lia].
      apply length_to_smashids_bucket in Hs as [Hs <-].
      apply Hw1 in Hs. tauto.
    - intros (Hs & Hne & Hlt & Hsub). exists (String.length s).
      assert (Hs1 : s ∈ w1.2) by (by apply Hw1).
      split; [| split; [done | split; [| done]]].
      + apply lengths_of_elem, length_to_smashids_dom. by exists s.
      + apply Hkeep; [lia |]. by apply length_to_smashids_bucket. }
  destruct (l2s !! String.length longest) as [same_length|] eqn:Hsame.
  - exists (step4_absorbed longest (delete (String.length longest) l2s)
              (lengths_of l2s)).
    cbn [result unassigned_smashids counter].
    rewrite step4_absorbs, step3_absorbs.
    assert (Hidle : List.filter (λ smash, String.eqb smash longest)
                                (elements same_length) = []).
    { apply elem_of_nil_inv. intros s [Hs Heq]%elem_of_List_filter.
      apply String.eqb_eq in Heq as ->. apply elem_of_elements in Hs.
      assert (Hb : longest ∈ bucket l2s (String.length longest))
        by (unfold bucket; by rewrite Hsame).
      apply length_to_smashids_bucket in Hb as [Hb%Hw1 _]. tauto. }
    rewrite Hidle. split; [done |]. split; [done |].
    apply Hstep4. intros n s Hn. rewrite bucket_delete. tauto.
  - exists (step4_absorbed longest l2s (lengths_of l2s)).
    cbn [result unassigned_smashids counter].
    rewrite step4_absorbs. split; [done |]. split; [done |].
    by apply Hstep4.
Qed.

(** X19: Step 3 never assigns anything: the fingerprints it looks at were
    collected after the primary had been removed, and they are distinct
    strings, so none of them equals the primary. *)
Theorem step3_never_fires (d : gmap string (list Z)) (longest : string)
    (st : State) (same_length : gset string) :
  let w1 := absorb d (counter st) longest (result st, unassigned_smashids st) in
  length_to_smashids_of w1.2 !! String.length longest = Some same_length →
  step3 d (counter st) longest same_length w1 = w1.
Proof.
  intros w1 Hsame. rewrite step3_absorbs.
  replace (List.filter (λ smash, String.eqb smash longest)
                       (elements same_length)) with (@nil string); [done |].
  symmetry. apply elem_of_nil_inv. intros s [Hs Heq]%elem_of_List_filter.
  apply String.eqb_eq in Heq as ->. apply elem_of_elements in Hs.
  assert (Hb : longest ∈ bucket (length_to_smashids_of w1.2) (String.length longest))
    by (unfold bucket; by rewrite Hsame).
  apply length_to_smashids_bucket in Hb as [Hb _].
  unfold w1, absorb in Hb. simpl in Hb.
  apply elem_of_difference in Hb as [_ Hb]. apply Hb. by apply elem_of_singleton.
Qed.

Lemma step3_never_fires_witness :
  let d : gmap string (list Z) := {[ "AB"%string := [1]; "CD"%string := [2] ]} in
  let st := {| result := ∅; unassigned_smashids := {[ "AB"%string; "CD"%string ]};
               counter := 1 |} in
  let w1 := absorb d 1 "AB" (result st, unassigned_smashids st) in
  step3 d 1 "AB" (bucket (length_to_smashids_of w1.2) 2) w1 = w1.
Proof.
  intros d st w1.
  assert (H : length_to_smashids_of w1.2 !! String.length "AB"
              = Some (bucket (length_to_smashids_of w1.2) 2))
    by (vm_compute; reflexivity).
  exact (step3_never_fires d "AB" st (bucket (length_to_smashids_of w1.2) 2) H).
Defined.

(** *** Why a Token is in its group *)

Lemma initial_result self d (t : Z) : result (initial self d) !! t = None.
Proof. apply lookup_empty. Qed.

Lemma assign_loop_justified fuel d st t g :
  result (assign_loop fuel d st) !! t = Some g →
  result st !! t = Some g
  ∨ ∃ p s, (p, g) ∈ allocations fuel d st ∧ t ∈ tokens_of d s
           ∧ (s = p ∨ ((String.length s < String.length p)%nat
                       ∧ issubset s p = true)).
Proof.
  revert st; induction fuel as [|fuel IH]; intros st; simpl; [by left |].
  destruct (first_sorted (elements (unassigned_smashids st))) as [longest|];
    [| by left].
  intros [Hg|(p & s & Hp & Ht & Hs)]%IH.
  - destruct (round_family d longest st) as (L & Hres & _ & HL).
    rewrite Hres in Hg.
    apply absorb_all_lookup in Hg as [(-> & s & Hs & Ht)|Hg]; [| by left].
    right. exists longest, s. split; [by left |]. split; [done |].
    apply elem_of_cons in Hs as [->|Hs]; [by left |].
    apply HL in Hs. tauto.
  - right. exists p, s. split; [by right | done].
Qed.

(** X20: Every GroupID in the output is justified by the family rule: the Token
    has a fingerprint that is the primary of that group, or is strictly
    shorter than it with all of its characters among the primary's. *)
Theorem group_is_justified (self : GroupIdAssigner)
    (token_smashids : list (Z * string)) (t g : Z) :
  (assign_group_ids self token_smashids).2 !! t = Some g →
  ∃ primary s,
    (primary, g) ∈ allocated self token_smashids
    ∧ (t, s) ∈ token_smashids
    ∧ (s = primary
       ∨ ((String.length s < String.length primary)%nat
          ∧ issubset s primary = true)).
Proof.
  unfold assign_group_ids, allocated. simpl.
  intros [Hg|(p & s & Hp & Ht & Hs)]%assign_loop_justified.
  - by rewrite initial_result in Hg.
  - exists p, s. split; [done |]. split; [| done].
    by apply smashid_to_tokenids_tokens.
Qed.

Lemma group_is_justified_witness :
  ∃ primary s,
    (primary, 1) ∈ allocated init [(1, "ABC"); (2, "CA"); (3, "XY")]%string
    ∧ (2, s) ∈ [(1, "ABC"); (2, "CA"); (3, "XY")]%string
    ∧ (s = primary
       ∨ ((String.length s < String.length primary)%nat
          ∧ issubset s primary = true)).
Proof.
  assert (H : (assign_group_ids init [(1, "ABC"); (2, "CA"); (3, "XY")]%string).2
              !! 2 = Some 1) by (vm_compute; reflexivity).
  exact (group_is_justified init [(1, "ABC"); (2, "CA"); (3, "XY")]%string 2 1 H).
Defined.

(** *** The primaries *)

Lemma StronglySorted_weaken {A} (R R' : A → A → Prop) (l : list A) :
  (∀ x y, R x y → R' x y) → StronglySorted R l → StronglySorted R' l.
Proof.
  intros HR. induction 1 as [|x l _ IH Hx]; constructor; [done |].
  eapply Forall_impl; [exact Hx |]. intros y. apply HR.
Qed.

Lemma allocations_waiting fuel d st p g :
  (p, g) ∈ allocations fuel d st → p ∈ unassigned_smashids st.
Proof.
  revert st; induction fuel as [|fuel IH]; intros st; simpl;
    [by intros ?%elem_of_nil |].
  destruct (first_sorted (elements (unassigned_smashids st))) as [longest|] eqn:Hfs;
    [| by intros ?%elem_of_nil].
  intros [[= -> ->]|Hin%IH]%elem_of_cons.
  - by apply first_sorted_elements in Hfs as [? _].
  - by apply round_unassigned in Hin as [? _].
Qed.

Lemma allocations_sorted fuel d st :
  StronglySorted (λ p q : string * Z, before p.1 q.1 = true)
                 (allocations fuel d st).
Proof.
  revert st; induction fuel as [|fuel IH]; intros st; simpl; [constructor |].
  destruct (first_sorted (elements (unassigned_smashids st))) as [longest|] eqn:Hfs;
    [| constructor].
  constructor; [apply IH |]. apply Forall_forall. intros [q g] Hq. simpl.
  apply allocations_waiting, round_unassigned in Hq as [Hq Hne].
  destruct (first_sorted_min _ _ Hfs q) as [->|Hb]; [| done | done].
  by apply elem_of_elements.
Qed.

(** X21: The groups are opened in the order of the sort key of step 1: a primary
    is longer than every later primary, or as long and before it in the
    order of strings; so no fingerprint is primary of two groups.  Every
    primary is a fingerprint of the input. *)
Theorem primaries_in_key_order (self : GroupIdAssigner)
    (token_smashids : list (Z * string)) :
  StronglySorted
    (λ p q : string * Z,
       p.1 ≠ q.1
       ∧ ((String.length q.1 < String.length p.1)%nat
          ∨ (String.length p.1 = String.length q.1 ∧ String.ltb p.1 q.1 = true)))
    (allocated self token_smashids)
  ∧ ∀ p g, (p, g) ∈ allocated self token_smashids →
           ∃ t, (t, p) ∈ token_smashids.
Proof.
  unfold allocated. split.
  - eapply StronglySorted_weaken; [| apply allocations_sorted].
    intros [p g] [q g'] Hb. simpl in *. split.
    + intros ->. by rewrite before_irrefl in Hb.
    + apply before_spec in Hb. by rewrite ltb_Lt.
  - intros p g Hp%allocations_waiting. simpl in Hp.
    by apply smashid_to_tokenids_dom in Hp.
Qed.

(** *** The counter across calls *)

(** X22: The counter is an attribute of the assigner and is never reset: a call
    that starts at counter [c] labels its groups [c], [c + 2], ... and leaves
    the counter after the last label, so the GroupIDs of a later call on the
    same assigner are all larger than those of this call. *)
Theorem labels_continue_across_calls (self : GroupIdAssigner)
    (first_input second_input : list (Z * string)) :
  let c := group_id_counter self in
  let labels := (allocated self first_input).*2 in
  let self' := (assign_group_ids self first_input).1 in
  labels = (λ i : nat, c + 2 * Z.of_nat i) <$> seq 0 (length labels)
  ∧ group_id_counter self' = c + 2 * Z.of_nat (length labels)
  ∧ (∀ t g, (assign_group_ids self first_input).2 !! t = Some g →
            c ≤ g < group_id_counter self')
  ∧ (∀ t g, (assign_group_ids self' second_input).2 !! t = Some g →
            group_id_counter self' ≤ g).
Proof.
  assert (Hrange : ∀ (a : GroupIdAssigner) input t g,
            (assign_group_ids a input).2 !! t = Some g →
            group_id_counter a ≤ g
            < group_id_counter a + 2 * Z.of_nat (length (allocated a input).*2)).
  { intros a input t g. unfold assign_group_ids, allocated. simpl.
    intros [Hg|Hg]%assign_loop_values; [by rewrite initial_result in Hg |].
    rewrite allocations_labels in Hg.
    apply list_elem_of_fmap in Hg as (i & -> & Hi%elem_of_seq). simpl.
    rewrite length_fmap. lia. }
  intros c labels self'.
  assert (Hc : group_id_counter self' = c + 2 * Z.of_nat (length labels)).
  { unfold self', labels, assign_group_ids, allocated. simpl.
    by rewrite assign_loop_counter, length_fmap. }
  split; [| split; [done | split]].
  - unfold labels, allocated. rewrite length_fmap. apply allocations_labels.
  - intros t g Hg%Hrange. fold c labels in Hg. lia.
  - intros t g Hg%Hrange. lia.
Qed.

(** *** The worksheet wrapper *)

Lemma split_nonempty sep s : split sep s ≠ [].
Proof.
  destruct s as [|c s]; simpl; [done |].
  destruct (Ascii.eqb c sep); [done |]. by destruct (split sep s).
Qed.

(** X23: A Token of the worksheet gets a GroupID exactly when its fingerprint is
    not empty, and the GroupIDs are odd numbers from 1, the assigner being a
    fresh one for every call. *)
Theorem worksheet_group_ids_domain (token_smash_final : list (Z * string)) :
  (∀ t, is_Some (process_worksheet_group_ids token_smash_final !! t)
        ↔ ∃ smash, (t, smash) ∈ token_smash_final ∧ smash ≠ EmptyString)
  ∧ ∀ t g, process_worksheet_group_ids token_smash_final !! t = Some g →
           ∃ i : nat, g = 2 * Z.of_nat i + 1.
Proof.
  unfold process_worksheet_group_ids. split.
  - intros t. rewrite <- assign_group_ids_dom. split.
    + intros ([t' s] & -> & Hin)%list_elem_of_fmap.
      by apply token_smash_pairs_elem in Hin.
    + intros (smash & Hin & Hne).
      destruct (split "|" smash) as [|piece pieces] eqn:Hsplit;
        [by apply split_nonempty in Hsplit |].
      apply list_elem_of_fmap. exists (t, piece). split; [done |].
      unfold token_smash_pairs. apply list_elem_of_bind.
      exists (t, smash). split; [| done]. simpl.
      rewrite decide_False by done. rewrite Hsplit. by left.
  - intros t g. unfold assign_group_ids. simpl.
    intros [Hg|Hg]%assign_loop_values; [by rewrite initial_result in Hg |].
    rewrite allocations_labels in Hg.
    apply list_elem_of_fmap in Hg as (i & -> & _). exists i. simpl. lia.
Qed.

End cluster_more.

(** ** WorksheetBuilder *)

Section builder_more.
Import Builder.

(** *** Splitting what was joined *)

Lemma split_no_sep sep (p : string) :
  sep ∉ list_ascii_of_string p → Clusterer.split sep p = [p].
Proof.
  induction p as [|c p IH]; simpl; [done |].
  intros Hnot. destruct (Ascii.eqb c sep) eqn:Hc.
  - apply Ascii.eqb_eq in Hc as ->. exfalso. apply Hnot. by left.
  - rewrite IH; [done |]. intros Hin. apply Hnot. by right.
Qed.

Lemma split_app_sep sep (p rest : string) :
  sep ∉ list_ascii_of_string p →
  Clusterer.split sep (String.append p (String sep rest))
  = p :: Clusterer.split sep rest.
Proof.
  induction p as [|c p IH]; simpl.
  - intros _. by rewrite Ascii.eqb_refl.
  - intros Hnot. destruct (Ascii.eqb c sep) eqn:Hc.
    + apply Ascii.eqb_eq in Hc as ->. exfalso. apply Hnot. by left.
    + rewrite IH; [done |]. intros Hin. apply Hnot. by right.
Qed.

Lemma split_concat (pieces : list string) :
  pieces ≠ [] →
  Forall (λ p, "|"%char ∉ list_ascii_of_string p) pieces →
  Clusterer.split "|" (String.concat "|" pieces) = pieces.
Proof.
  induction pieces as [|x [|y ys] IH]; [done | |]; intros _ Hall.
  - simpl. apply split_no_sep. by apply Forall_cons in Hall as [? _].
  - apply Forall_cons in Hall as [Hx Hall].
    change (String.concat "|" (x :: y :: ys))
      with (String.append x (String "|" (String.concat "|" (y :: ys)))).
    rewrite split_app_sep by done. f_equal. by apply IH.
Qed.

(** *** The longest SmashIDs of a Token *)

Lemma sorted_set_elem values s : s ∈ sorted_set values ↔ s ∈ values.
Proof.
  unfold sorted_set. by rewrite merge_sort_Permutation, drop_duplicates_id_elem.
Qed.

Lemma sorted_set_NoDup values : NoDup (sorted_set values).
Proof.
  unfold sorted_set. rewrite merge_sort_Permutation.
  apply drop_duplicates_id_NoDup.
Qed.

Lemma max_length_attained (col : list string) :
  col ≠ [] →
  ∃ s0, s0 ∈ col ∧ String.length s0 = max_list (String.length <$> col).
Proof.
  intros Hne.
  assert (Hin : max_list (String.length <$> col) ∈ String.length <$> col).
  { apply max_list_elem_of. by destruct col. }
  apply list_elem_of_fmap in Hin as (s0 & Heq & Hs0). by exists s0.
Qed.

Lemma max_length_spec (col : list string) p :
  col ≠ [] →
  (String.length p = max_list (String.length <$> col) ∧ p ∈ col)
  ↔ (p ∈ col ∧ ∀ s, s ∈ col → (String.length s ≤ String.length p)%nat).
Proof.
  intros Hne.
  assert (Hle : ∀ s, s ∈ col →
            (String.length s ≤ max_list (String.length <$> col))%nat).
  { intros s Hs. apply max_list_elem_of_le, list_elem_of_fmap. by exists s. }
  destruct (max_length_attained col Hne) as (s0 & Hs0 & Heq).
  split.
  - intros [Hlen Hp]. split; [done |]. intros s Hs%Hle. lia.
  - intros [Hp Hall]. split; [| done].
    specialize (Hall s0 Hs0). specialize (Hle p Hp). lia.
Qed.

Lemma all_empty (col : list string) :
  existsb (λ s, negb (String.eqb s "")) col = false
  ↔ ∀ s, s ∈ col → s = ""%string.
Proof.
  induction col as [|x col IH]; simpl.
  - split; [by intros _ s ?%elem_of_nil | done].
  - rewrite orb_false_iff, IH, negb_false_iff, String.eqb_eq. split.
    + intros [-> Hall] s [->|Hs]%elem_of_cons; [done | by apply Hall].
    + intros Hall. split; [apply Hall; by left |].
      intros s Hs. apply Hall. by right.
Qed.

Lemma longest_smash_split (col : list string) :
  col ≠ [] →
  Forall (λ s, "|"%char ∉ list_ascii_of_string s) col →
  NoDup (Clusterer.split "|" (longest_smash col))
  ∧ ∀ piece, piece ∈ Clusterer.split "|" (longest_smash col)
             ↔ piece ∈ col
               ∧ ∀ s, s ∈ col → (String.length s ≤ String.length piece)%nat.
Proof.
  intros Hne Hpipe. unfold longest_smash.
  destruct (existsb (λ s, negb (String.eqb s "")) col) eqn:Hex.
  - set (pieces := sorted_set
                     (filter (λ s, String.length s
                                   = max_list (String.length <$> col)) col)).
    assert (Hel : ∀ p, p ∈ pieces
                       ↔ p ∈ col
                         ∧ ∀ s, s ∈ col →
                                (String.length s ≤ String.length p)%nat).
    { intros p. unfold pieces.
      by rewrite sorted_set_elem, list_elem_of_filter, max_length_spec. }
    rewrite split_concat.
    + split; [apply sorted_set_NoDup | done].
    + destruct (max_length_attained col Hne) as (s0 & Hs0 & Heq).
      intros Hnil. assert (Hin : s0 ∈ pieces).
      { apply Hel, max_length_spec; done. }
      rewrite Hnil in Hin. by apply elem_of_nil in Hin.
    + apply Forall_forall. intros p [Hp _]%Hel.
      rewrite Forall_forall in Hpipe. by apply Hpipe.
  - pose proof (proj1 (all_empty col) Hex) as Hall. simpl.
    split; [apply NoDup_singleton |]. intros piece.
    rewrite list_elem_of_singleton. split.
    + intros ->. split.
      * destruct col as [|s0 col]; [done |].
        assert (s0 = ""%string) as -> by (apply Hall; by left). by left.
      * intros s ->%Hall. simpl. lia.
    + intros [Hp _]. by apply Hall.
Qed.

Lemma smash_group_elem (children : list Child) t s :
  s ∈ smash_group (child_frame children) t
  ↔ ∃ c, c ∈ children ∧ TokenID c = t
         ∧ Smash.create_smash_id (full_name c) = s.
Proof.
  unfold smash_group, child_frame. rewrite list_elem_of_fmap. split.
  - intros ([t' s'] & -> & [Ht Hin]%list_elem_of_filter). simpl in *. subst t'.
    apply list_elem_of_fmap in Hin as (c & [= -> ->] & Hc). by exists c.
  - intros (c & Hc & <- & <-).
    exists (TokenID c, Smash.create_smash_id (full_name c)). split; [done |].
    apply list_elem_of_filter. split; [done |].
    apply list_elem_of_fmap. by exists c.
Qed.

Lemma compute_smash_ids_elem children t smash :
  (t, smash) ∈ _compute_smash_ids children
  ↔ (∃ c, c ∈ children ∧ TokenID c = t)
    ∧ smash = longest_smash (smash_group (child_frame children) t).
Proof.
  unfold _compute_smash_ids. rewrite list_elem_of_fmap. split.
  - intros (t' & [= -> ->] & Hin). split; [| done].
    rewrite sorted_Z_elem, drop_duplicates_id_elem in Hin.
    unfold child_frame in Hin. rewrite <- list_fmap_compose in Hin.
    apply list_elem_of_fmap in Hin as (c & -> & Hc). by exists c.
  - intros [(c & Hc & <-) ->]. exists (TokenID c). split; [done |].
    rewrite sorted_Z_elem, drop_duplicates_id_elem.
    unfold child_frame. rewrite <- list_fmap_compose.
    apply list_elem_of_fmap. by exists c.
Qed.

Lemma smash_id_letters name c :
  c ∈ list_ascii_of_string (Smash.create_smash_id name) →
  Smash.isalpha_ascii c = true.
Proof.
  unfold Smash.create_smash_id. rewrite list_ascii_of_string_of_list_ascii.
  by intros (_ & ? & _)%keep_unseen_elem.
Qed.

Lemma smash_group_facts children t c0 :
  c0 ∈ children → TokenID c0 = t →
  smash_group (child_frame children) t ≠ []
  ∧ Forall (λ s, "|"%char ∉ list_ascii_of_string s)
           (smash_group (child_frame children) t).
Proof.
  intros Hc0 Ht. split.
  - intros Hnil.
    assert (Hin : Smash.create_smash_id (full_name c0)
                  ∈ smash_group (child_frame children) t)
      by (apply smash_group_elem; by exists c0).
    rewrite Hnil in Hin. by apply elem_of_nil in Hin.
  - apply Forall_forall. intros s (c & _ & _ & <-)%smash_group_elem Hin.
    apply smash_id_letters in Hin. vm_compute in Hin. discriminate.
Qed.

Lemma token_smash_pairs_iff token_smash_final t s :
  (t, s) ∈ Clusterer.token_smash_pairs token_smash_final
  ↔ ∃ smash, (t, smash) ∈ token_smash_final ∧ smash ≠ EmptyString
             ∧ s ∈ Clusterer.split "|" smash.
Proof.
  unfold Clusterer.token_smash_pairs. rewrite list_elem_of_bind. split.
  - intros ([t' smash] & Hin & Htsf). simpl in Hin.
    case_decide as He; [by apply elem_of_nil in Hin |].
    apply list_elem_of_fmap in Hin as (piece & [= -> ->] & Hp). by exists smash.
  - intros (smash & Htsf & Hne & Hs). exists (t, smash). split; [| done].
    simpl. rewrite decide_False by done. apply list_elem_of_fmap. by exists s.
Qed.

Lemma length_zero_empty (s : string) : (String.length s ≤ 0)%nat → s = ""%string.
Proof. destruct s; [done |]. simpl. lia. Qed.

(** X25: What the builder hands to the clusterer: every Token with exactly its
    longest SmashIDs (each of them when several names tie), provided they are
    not empty.  So a Token gets a GroupID exactly when one of its names has
    a letter. *)
Theorem clusterer_sees_longest_smash_ids (children : list Child) :
  Forall (λ c, Smash.isascii (full_name c) = true) children →
  (∀ t s, (t, s) ∈ Clusterer.token_smash_pairs (_compute_smash_ids children)
          ↔ s ≠ EmptyString
            ∧ (∃ c, c ∈ children ∧ TokenID c = t
                    ∧ Smash.create_smash_id (full_name c) = s)
            ∧ (∀ c, c ∈ children → TokenID c = t →
                    (String.length (Smash.create_smash_id (full_name c))
                     ≤ String.length s)%nat))
  ∧ (∀ t, is_Some (group_map children !! t)
          ↔ ∃ c, c ∈ children ∧ TokenID c = t
                 ∧ Smash.create_smash_id (full_name c) ≠ EmptyString).
Proof.
  intros _.
  assert (Hpairs :
    ∀ t s, (t, s) ∈ Clusterer.token_smash_pairs (_compute_smash_ids children)
           ↔ s ≠ EmptyString
             ∧ (∃ c, c ∈ children ∧ TokenID c = t
                     ∧ Smash.create_smash_id (full_name c) = s)
             ∧ (∀ c, c ∈ children → TokenID c = t →
                     (String.length (Smash.create_smash_id (full_name c))
                      ≤ String.length s)%nat)).
  { intros t s. rewrite token_smash_pairs_iff. split.
    - intros (smash & [(c0 & Hc0 & Ht0) ->]%compute_smash_ids_elem & Hne & Hs).
      destruct (smash_group_facts children t c0 Hc0 Ht0) as [Hcol Hpipe].
      destruct (longest_smash_split _ Hcol Hpipe) as [_ Hel].
      apply Hel in Hs as [Hs Hmax]. split; [| split].
      + intros ->. apply Hne. unfold longest_smash.
        rewrite (proj2 (all_empty _)); [done |].
        intros x Hx%Hmax. by apply length_zero_empty.
      + by apply smash_group_elem.
      + intros c Hc Ht. apply Hmax, smash_group_elem. by exists c.
    - intros (Hne & (c & Hc & Ht & Hs) & Hmax).
      destruct (smash_group_facts children t c Hc Ht) as [Hcol Hpipe].
      destruct (longest_smash_split _ Hcol Hpipe) as [_ Hel].
      exists (longest_smash (smash_group (child_frame children) t)).
      assert (Hin : s ∈ Clusterer.split "|"
                        (longest_smash (smash_group (child_frame children) t))).
      { apply Hel. split; [apply smash_group_elem; by exists c |].
        intros x (c' & Hc' & Ht' & <-)%smash_group_elem. by apply Hmax. }
      split; [apply compute_smash_ids_elem; split; [by exists c | done] |].
      split; [| done]. intros Hempty. rewrite Hempty in Hin. simpl in Hin.
      by apply list_elem_of_singleton in Hin. }
  split; [done |].
  intros t. unfold group_map, Clusterer.process_worksheet_group_ids.
  rewrite <- assign_group_ids_dom. split.
  - intros ([t' s] & -> & Hin)%list_elem_of_fmap. simpl.
    apply Hpairs in Hin as (Hne & (c & Hc & Ht & Hs) & _).
    exists c. by rewrite Hs.
  - intros (c & Hc & Ht & Hne).
    destruct (smash_group_facts children t c Hc Ht) as [Hcol _].
    destruct (max_length_attained _ Hcol) as (s0 & Hs0 & Heq).
    pose proof (proj1 (max_length_spec _ s0 Hcol) (conj Heq Hs0)) as [_ Hmax].
    apply list_elem_of_fmap. exists (t, s0). split; [done |].
    apply Hpairs. split; [| split].
    + intros ->. apply Hne, length_zero_empty.
      apply (Hmax (Smash.create_smash_id (full_name c))).
      apply smash_group_elem. by exists c.
    + by apply smash_group_elem.
    + intros c' Hc' Ht'. apply Hmax, smash_group_elem. by exists c'.
Qed.

Lemma clusterer_sees_longest_smash_ids_witness :
  let ann := {| TokenID := 1; FullName := Some "Ann Lee"%string;
                FirstName := None; LastName := None |} in
  let anna := {| TokenID := 1; FullName := None;
                 FirstName := Some "Annabel"%string;
                 LastName := Some "Lee"%string |} in
  let blank := {| TokenID := 2; FullName := Some "42"%string;
                  FirstName := None; LastName := None |} in
  is_Some (group_map [ann; anna; blank] !! 2)
  ↔ ∃ c, c ∈ [ann; anna; blank] ∧ TokenID c = 2
         ∧ Smash.create_smash_id (full_name c) ≠ EmptyString.
Proof.
  intros ann anna blank.
  assert (H : Forall (λ c, Smash.isascii (full_name c) = true)
                     [ann; anna; blank]) by (by repeat constructor).
  exact (proj2 (clusterer_sees_longest_smash_ids [ann; anna; blank] H) 2).
Defined.

(** *** The canonical SmashID of a group *)

Lemma variants_of_elem (smash_series : list (option string)) v :
  v ∈ variants_of smash_series
  ↔ ∃ s, Some s ∈ smash_series ∧ v ∈ Clusterer.split "|" s.
Proof.
  unfold variants_of. rewrite list_elem_of_bind. split.
  - intros (s & Hv & Hs).
    rewrite drop_duplicates_id_elem, list_elem_of_omap in Hs.
    destruct Hs as (x & Hx & Heq).
    simpl in Heq. subst x. by exists s.
  - intros (s & Hs & Hv). exists s. split; [done |].
    rewrite drop_duplicates_id_elem, list_elem_of_omap. by exists (Some s).
Qed.

Lemma first_sorted_unique l l' m m' :
  (∀ v, v ∈ l ↔ v ∈ l') →
  Clusterer.first_sorted l = Some m → Clusterer.first_sorted l' = Some m' →
  m = m'.
Proof.
  intros Hsame Hm Hm'.
  pose proof (first_sorted_Some _ _ Hm) as [Hin _].
  pose proof (first_sorted_Some _ _ Hm') as [Hin' _].
  destruct (first_sorted_min _ _ Hm m') as [?|H1]; [by apply Hsame | done |].
  destruct (first_sorted_min _ _ Hm' m) as [?|H2]; [by apply Hsame | done |].
  pose proof (before_trans _ _ _ H1 H2) as H. by rewrite before_irrefl in H.
Qed.

(** X26: The canonical SmashID of a group is the variant that comes first under
    the key of the clusterer (longest, then least in the order of strings);
    it does not depend on the order or the repetitions of the rows; a group
    without SmashID gets the empty string. *)
Theorem select_main_minimal (smash_series : list (option string)) :
  (∀ s v, Some s ∈ smash_series → v ∈ Clusterer.split "|" s →
          v = select_main smash_series
          ∨ Clusterer.before (select_main smash_series) v = true)
  ∧ ((∃ s, Some s ∈ smash_series) →
     ∃ s, Some s ∈ smash_series
          ∧ select_main smash_series ∈ Clusterer.split "|" s)
  ∧ ((∀ x, x ∈ smash_series → x = None) →
     select_main smash_series = ""%string)
  ∧ (∀ other, (∀ x, x ∈ smash_series ↔ x ∈ other) →
              select_main other = select_main smash_series).
Proof.
  assert (Hsome : ∀ series s, Some s ∈ series →
            ∃ m, Clusterer.first_sorted (variants_of series) = Some m).
  { intros series s Hs.
    destruct (Clusterer.first_sorted (variants_of series)) as [m|] eqn:Hfs;
      [by exists m |].
    apply first_sorted_None in Hfs.
    destruct (Clusterer.split "|" s) as [|v vs] eqn:Hsplit;
      [by apply split_nonempty in Hsplit |].
    assert (Hv : v ∈ variants_of series).
    { apply variants_of_elem. exists s. split; [done |]. rewrite Hsplit. by left. }
    rewrite Hfs in Hv. by apply elem_of_nil in Hv. }
  split; [| split; [| split]].
  - intros s v Hs Hv. destruct (Hsome _ _ Hs) as [m Hm].
    unfold select_main. rewrite Hm. simpl.
    apply (first_sorted_min _ _ Hm), variants_of_elem. by exists s.
  - intros [s Hs]. destruct (Hsome _ _ Hs) as [m Hm].
    unfold select_main. rewrite Hm. simpl.
    apply first_sorted_Some in Hm as [Hin _]. by apply variants_of_elem in Hin.
  - intros Hnull. unfold select_main.
    destruct (Clusterer.first_sorted (variants_of smash_series)) as [m|] eqn:Hfs;
      [| done].
    apply first_sorted_Some in Hfs as [Hin _].
    apply variants_of_elem in Hin as (s & Hs%Hnull & _). discriminate.
  - intros other Hsame.
    assert (Hvar : ∀ v, v ∈ variants_of other ↔ v ∈ variants_of smash_series).
    { intros v. rewrite !variants_of_elem. split; intros (s & Hs & Hv);
        exists s; (split; [by apply Hsame | done]). }
    unfold select_main.
    destruct (Clusterer.first_sorted (variants_of other)) as [m|] eqn:Hm,
             (Clusterer.first_sorted (variants_of smash_series)) as [m'|] eqn:Hm';
      simpl; [| | | done].
    + by apply (first_sorted_unique _ _ _ _ Hvar Hm Hm').
    + apply first_sorted_Some in Hm as [Hin _]. apply first_sorted_None in Hm'.
      apply Hvar in Hin. rewrite Hm' in Hin. by apply elem_of_nil in Hin.
    + apply first_sorted_Some in Hm' as [Hin _]. apply first_sorted_None in Hm.
      apply Hvar in Hin. rewrite Hm in Hin. by apply elem_of_nil in Hin.
Qed.

(** *** The K12 block *)








End builder_more.
